(** * PagedDuplexStream: a size-bounded page queue for rendered text

    A shallow embedding of
    [src/commands/interface-manager/PagedDuplexStream.ts] and the proofs
    of the properties stated about it.

    The class is a mutable object with three private fields and one
    read-only public field.  Its methods are embedded as computations in
    a state-and-exception monad over the record of those fields: a method
    either completes normally with a value or throws, and in both cases it
    hands back the state the object is left in. *)

From Stdlib Require Import ZArith String Lia.
From stdpp Require Import list.

Local Open Scope Z_scope.

(** ** JavaScript strings and arrays *)

(** A JavaScript string is a finite sequence of code units; [string] is
    used for it, [String.length] for [.length] and [String.append] for
    [+]. *)
Notation "s +++ t" := (String.append s t)
  (at level 60, right associativity) : stdpp_scope.

Definition strlen (s : string) : Z := Z.of_nat (String.length s).

(** [Array.prototype.at]: a negative index counts back from the end, and
    an index that is out of range on either side yields [undefined]
    ([None]). *)
Definition array_at {A} (l : list A) (i : Z) : option A :=
  let k := if i <? 0 then i + Z.of_nat (length l) else i in
  if k <? 0 then None else l !! Z.to_nat k.

(** [Array.prototype.shift]: removes and returns the first element;
    [undefined] on an empty array, which is left as it is. *)
Definition array_shift {A} (l : list A) : option A * list A :=
  match l with
  | [] => (None, [])
  | x :: l' => (Some x, l')
  end.

(** The text made of all the pages of a list, in order. *)
Definition concatPages (l : list string) : string :=
  foldr String.append EmptyString l.

(** ** Exceptions and completions *)

Inductive Exception : Type :=
| TypeError (message : string).

(** The error [commit] throws by itself. *)
Definition OversizeCommit : Exception :=
  TypeError "Commit is too large, could not write a page for this commit".

(** The error the runtime throws when [.length] is read from
    [undefined]. *)
Definition UndefinedLength : Exception :=
  TypeError "Cannot read properties of undefined (reading 'length')".

Inductive Completion (A : Type) : Type :=
| Normal (a : A)
| Throw (e : Exception).
Arguments Normal {A} a.
Arguments Throw {A} e.

Definition isNormal {A} (c : Completion A) : bool :=
  match c with Normal _ => true | Throw _ => false end.

(** The document nodes of the worked examples. *)
Inductive ExampleNode : Type := nodeA | nodeB | nodeC.

Section Stream.

(** The document node attached to a commit is opaque to the stream. *)
Variable DocumentNode : Type.

(** ** The object state *)

Record PagedDuplexStream : Type := mkStream {
  buffer : string;
  pages : list string;
  lastCommittedNode : option DocumentNode;
  sizeLimit : Z
}.

Definition set_buffer (b : string) (this : PagedDuplexStream) :=
  mkStream b (pages this) (lastCommittedNode this) (sizeLimit this).
Definition set_pages (p : list string) (this : PagedDuplexStream) :=
  mkStream (buffer this) p (lastCommittedNode this) (sizeLimit this).
Definition set_lastCommittedNode (n : option DocumentNode)
    (this : PagedDuplexStream) :=
  mkStream (buffer this) (pages this) n (sizeLimit this).

(** [new PagedDuplexStream(sizeLimit)]; [sizeLimit] is a JavaScript
    number and the constructor does not validate it, so it is any
    integer here.  Without an argument the limit is [defaultSizeLimit]. *)
Definition defaultSizeLimit : Z := 20000.

Definition constructor (limit : Z) : PagedDuplexStream :=
  mkStream EmptyString [EmptyString] None limit.

(** ** The method monad *)

Definition Method (A : Type) : Type :=
  PagedDuplexStream -> Completion A * PagedDuplexStream.

Definition ret {A} (a : A) : Method A := fun this => (Normal a, this).

Definition throw {A} (e : Exception) : Method A :=
  fun this => (Throw e, this).

Definition bind {A B} (m : Method A) (k : A -> Method B) : Method B :=
  fun this =>
    match m this with
    | (Normal a, this') => k a this'
    | (Throw e, this') => (Throw e, this')
    end.

Definition get : Method PagedDuplexStream := fun this => (Normal this, this).

Definition modify (f : PagedDuplexStream -> PagedDuplexStream)
  : Method unit := fun this => (Normal tt, f this).

Notation "'let*' x ':=' m 'in' k" := (bind m (fun x => k))
  (at level 10, x name, m at level 100, k at level 200, only parsing).
Notation "'do' m 'then' k" := (bind m (fun _ => k))
  (at level 10, m at level 100, k at level 200, only parsing).

(** Reading [.length] of a value that may be [undefined]. *)
Definition lengthOf (v : option string) : Method Z :=
  match v with
  | Some s => ret (strlen s)
  | None => throw UndefinedLength
  end.

(** Modelled from the spec: the [traceSync] decorator of [utils], which is
    not part of the sources at hand.  The spec describes it as tracing that
    is orthogonal to the contract of the buffer, so a decorated method
    behaves as its body. *)
Definition traceSync {A} (name : string) (body : Method A) : Method A := body.

(** ** The methods *)

(** [get currentPage()]: [this.pages.at(this.pages.length - 1)]. *)
Definition currentPage : Method (option string) :=
  let* this := get in
  ret (array_at (pages this) (Z.of_nat (length (pages this)) - 1)).

(** [this.pages[currentIndex] = this.pages[currentIndex] + string] with
    [currentIndex = this.pages.length - 1].  On an array without elements
    the index is [-1]: the assignment then creates a property of that
    name and the elements of the array stay as they are. *)
Definition appendToCurrentPage (str : string) : Method unit :=
  traceSync "PagedDuplexStream.appendToCurrentPage" (
    let* this := get in
    let currentIndex := Z.of_nat (length (pages this)) - 1 in
    if currentIndex <? 0 then ret tt
    else
      let i := Z.to_nat currentIndex in
      let old := default "undefined"%string (pages this !! i) in
      modify (set_pages (<[i := old +++ str]> (pages this)))).

(** [this.buffer += string; return this]: the returned reference is the
    receiver, whose new state is the state handed back. *)
Definition writeString (str : string) : Method unit :=
  traceSync "PagedDuplexStream.writeString" (
    let* this := get in
    modify (set_buffer (buffer this +++ str))).

Definition getPosition : Method Z :=
  traceSync "PagedDuplexStream.getPosition" (
    let* this := get in
    ret (strlen (buffer this))).

Definition isPageAndBufferOverSize : Method bool :=
  traceSync "PagedDuplexStream.isPageAndBufferOverSize" (
    let* page := currentPage in
    let* n := lengthOf page in
    let* this := get in
    ret (n + strlen (buffer this) >? sizeLimit this)).

Definition ensureNewPage : Method unit :=
  traceSync "PagedDuplexStream.ensureNewPage" (
    let* page := currentPage in
    let* n := lengthOf page in
    if negb (n =? 0) then
      let* this := get in
      modify (set_pages (pages this ++ [EmptyString]))
    else ret tt).

Definition commit (node : DocumentNode) : Method unit :=
  traceSync "PagedDuplexStream.commit" (
    let* over := isPageAndBufferOverSize in
    do (if over then
          let* page := currentPage in
          let* n := lengthOf page in
          let* this := get in
          if (n =? 0) && (strlen (buffer this) >? sizeLimit this)
          then throw OversizeCommit
          else ensureNewPage
        else ret tt) then
    let* this := get in
    do appendToCurrentPage (buffer this) then
    do modify (set_buffer EmptyString) then
    modify (set_lastCommittedNode (Some node))).

Definition getLastCommittedNode : Method (option DocumentNode) :=
  traceSync "PagedDuplexStream.getLastCommittedNode" (
    let* this := get in
    ret (lastCommittedNode this)).

Definition peekPage : Method (option string) :=
  traceSync "PagedDuplexStream.peekPage" (
    let* this := get in
    if Z.of_nat (length (pages this)) <? 2 then ret None
    else ret (array_at (pages this) 0)).

Definition readPage : Method (option string) :=
  traceSync "PagedDuplexStream.readPage" (
    let* this := get in
    if Z.of_nat (length (pages this)) <? 2 then ret None
    else
      let '(page, rest) := array_shift (pages this) in
      do modify (set_pages rest) then
      ret page).

(** ** Callers

    A caller holds one stream and calls its public methods in some order.
    A call that throws leaves the object alive in the state it had when
    the exception left the method, and the caller may go on using it. *)

Inductive Call : Type :=
| WriteString (str : string)
| GetPosition
| IsPageAndBufferOverSize
| EnsureNewPage
| Commit (node : DocumentNode)
| GetLastCommittedNode
| PeekPage
| ReadPage.

Inductive Value : Type :=
| VVoid
| VSelf
| VNumber (n : Z)
| VBoolean (b : bool)
| VNode (n : option DocumentNode)
| VPage (p : option string).

Definition invoke (c : Call) : Method Value :=
  match c with
  | WriteString str => do writeString str then ret VSelf
  | GetPosition => let* n := getPosition in ret (VNumber n)
  | IsPageAndBufferOverSize =>
      let* b := isPageAndBufferOverSize in ret (VBoolean b)
  | EnsureNewPage => do ensureNewPage then ret VVoid
  | Commit node => do commit node then ret VVoid
  | GetLastCommittedNode =>
      let* n := getLastCommittedNode in ret (VNode n)
  | PeekPage => let* p := peekPage in ret (VPage p)
  | ReadPage => let* p := readPage in ret (VPage p)
  end.

(** The state of the stream once the calls [cs] have been made on it. *)
Fixpoint run (cs : list Call) (this : PagedDuplexStream)
  : PagedDuplexStream :=
  match cs with
  | [] => this
  | c :: cs' => run cs' (snd (invoke c this))
  end.

(** What the calls [cs] returned or threw, in order. *)
Fixpoint results (cs : list Call) (this : PagedDuplexStream)
  : list (Completion Value) :=
  match cs with
  | [] => []
  | c :: cs' => fst (invoke c this) :: results cs' (snd (invoke c this))
  end.

(** The pages the caller obtained from [readPage] during the calls [cs],
    in the order it obtained them. *)
Fixpoint drained (cs : list Call) (this : PagedDuplexStream)
  : list string :=
  match cs with
  | [] => []
  | c :: cs' =>
      match c, fst (invoke c this) with
      | ReadPage, Normal (VPage (Some page)) => [page]
      | _, _ => []
      end ++ drained cs' (snd (invoke c this))
  end.

(** All the text the calls [cs] passed to [writeString], in order. *)
Fixpoint written (cs : list Call) : string :=
  match cs with
  | [] => EmptyString
  | WriteString str :: cs' => str +++ written cs'
  | _ :: cs' => written cs'
  end.

(** No [commit] among the calls [cs] is made while the accumulated text
    is longer than the size limit. *)
Fixpoint commitsFit (cs : list Call) (this : PagedDuplexStream) : bool :=
  match cs with
  | [] => true
  | c :: cs' =>
      match c with
      | Commit _ => strlen (buffer this) <=? sizeLimit this
      | _ => true
      end && commitsFit cs' (snd (invoke c this))
  end.

(** The state a successful [commit] leaves behind: the accumulator is
    emptied, the node recorded, and the pages are [p]. *)
Definition committed (node : DocumentNode) (p : list string)
    (this : PagedDuplexStream) : PagedDuplexStream :=
  mkStream EmptyString p (Some node) (sizeLimit this).

(** How one call can change the page array, [buf] being the accumulator
    at the time of the call: not at all, by a push of an empty page after
    a current page with text, by an append to the current page, by a
    rollover, or by a shift of the oldest of at least two pages. *)
Inductive pagesStep (buf : string) : list string -> list string -> Prop :=
| step_same l :
    pagesStep buf l l
| step_push closed cur :
    cur <> EmptyString ->
    pagesStep buf (closed ++ [cur]) (closed ++ [cur; EmptyString])
| step_append closed cur :
    pagesStep buf (closed ++ [cur]) (closed ++ [cur +++ buf])
| step_rollover closed cur :
    cur <> EmptyString ->
    pagesStep buf (closed ++ [cur]) (closed ++ [cur; buf])
| step_shift first second rest :
    pagesStep buf (first :: second :: rest) (second :: rest).

(** ** Invariants *)

(** Every page of [l] but the last one has text in it. *)
Definition closedPagesNonEmpty (l : list string) : Prop :=
  exists closed cur,
    l = closed ++ [cur] /\ Forall (fun p => p <> EmptyString) closed.

(** No page of [l] is longer than [limit]. *)
Definition pagesWithin (limit : Z) (l : list string) : Prop :=
  Forall (fun p => strlen p <= limit) l.

(** No two neighbouring pages of [l] are both empty. *)
Definition noAdjacentEmpty (l : list string) : Prop :=
  forall i p q,
    l !! i = Some p -> l !! S i = Some q ->
    ~ (p = EmptyString /\ q = EmptyString).

(** ** Notions for whole sessions *)

(** The calls that only ask. *)
Definition isQuery (c : Call) : bool :=
  match c with
  | GetPosition | IsPageAndBufferOverSize | GetLastCommittedNode
  | PeekPage => true
  | _ => false
  end.

Definition isCommit (c : Call) : bool :=
  match c with Commit _ => true | _ => false end.

Definition isEnsureNewPage (c : Call) : bool :=
  match c with EnsureNewPage => true | _ => false end.

(** The page sequence [l'] continues [l]: the pages of [l] before its
    last one are there unchanged and in place, the last page of [l] has
    at most gained text at its end, and pages may have been added after
    it. *)
Definition continues (l l' : list string) : Prop :=
  exists closed cur t more,
    l = closed ++ [cur] /\ l' = closed ++ [cur +++ t] ++ more.

(** The node of the last of the calls [cs] that was a [commit] and, by
    the results [rs], returned normally; [before] when there is none. *)
Fixpoint lastNormalCommit (cs : list Call) (rs : list (Completion Value))
    (before : option DocumentNode) : option DocumentNode :=
  match cs, rs with
  | Commit node :: cs', Normal _ :: rs' =>
      lastNormalCommit cs' rs' (Some node)
  | _ :: cs', _ :: rs' => lastNormalCommit cs' rs' before
  | _, _ => before
  end.

(** ** Strings and arrays *)

Lemma append_empty_r (s : string) : s +++ EmptyString = s.
Proof. induction s as [|c s IH]; simpl; [reflexivity | now rewrite IH]. Qed.

Lemma append_assoc (s t u : string) : (s +++ t) +++ u = s +++ t +++ u.
Proof. induction s as [|c s IH]; simpl; [reflexivity | now rewrite IH]. Qed.

Lemma strlen_append (s t : string) : strlen (s +++ t) = strlen s + strlen t.
Proof.
  unfold strlen. induction s as [|c s IH]; simpl String.length.
  - reflexivity.
  - rewrite !Nat2Z.inj_succ, IH. lia.
Qed.

Lemma strlen_zero (s : string) : strlen s = 0 <-> s = EmptyString.
Proof.
  unfold strlen. destruct s; simpl; split; intros H; try reflexivity;
    try discriminate; lia.
Qed.

Lemma array_at_last {A} (l : list A) (x : A) :
  array_at (l ++ [x]) (Z.of_nat (length (l ++ [x])) - 1) = Some x.
Proof.
  unfold array_at. rewrite length_app. change (length [x]) with 1%nat.
  replace (Z.of_nat (length l + 1) - 1) with (Z.of_nat (length l)) by lia.
  assert (E : (Z.of_nat (length l) <? 0) = false) by (apply Z.ltb_ge; lia).
  cbv zeta. rewrite !E, Nat2Z.id. apply list_lookup_middle. reflexivity.
Qed.

Lemma concatPages_app (l k : list string) :
  concatPages (l ++ k) = concatPages l +++ concatPages k.
Proof.
  induction l as [|p l IH]; simpl; [reflexivity|].
  fold (concatPages (l ++ k)). fold (concatPages l).
  now rewrite IH, append_assoc.
Qed.

Lemma snoc_or_nil {A} (l : list A) : l = [] \/ exists k x, l = k ++ [x].
Proof.
  destruct (last l) as [x|] eqn:E.
  - right. apply last_Some in E. destruct E as [k ->]. eauto.
  - left. now apply last_None.
Qed.

(** ** What each method does on a stream with a current page *)

Section WithCurrentPage.

Variables (closed : list string) (cur : string).
Variable this : PagedDuplexStream.
Hypothesis Hpages : pages this = closed ++ [cur].

Lemma currentPage_snoc : currentPage this = (Normal (Some cur), this).
Proof.
  unfold currentPage, bind, get, ret. rewrite Hpages.
  now rewrite array_at_last.
Qed.

Lemma isPageAndBufferOverSize_snoc :
  isPageAndBufferOverSize this =
  (Normal (strlen cur + strlen (buffer this) >? sizeLimit this), this).
Proof.
  unfold isPageAndBufferOverSize, traceSync, bind.
  now rewrite currentPage_snoc.
Qed.

Lemma ensureNewPage_snoc :
  ensureNewPage this =
  (Normal tt,
   if strlen cur =? 0 then this
   else set_pages (closed ++ [cur; EmptyString]) this).
Proof.
  unfold ensureNewPage, traceSync, bind. rewrite currentPage_snoc.
  simpl. destruct (strlen cur =? 0); simpl; [reflexivity|].
  unfold modify. now rewrite Hpages, <- app_assoc.
Qed.

Lemma appendToCurrentPage_snoc (str : string) :
  appendToCurrentPage str this =
  (Normal tt, set_pages (closed ++ [cur +++ str]) this).
Proof.
  unfold appendToCurrentPage, traceSync, bind, get, modify.
  rewrite Hpages, length_app. change (length [cur]) with 1%nat.
  assert (E : (Z.of_nat (length closed + 1) - 1 <? 0) = false)
    by (apply Z.ltb_ge; lia).
  cbv zeta. rewrite E.
  replace (Z.to_nat (Z.of_nat (length closed + 1) - 1))
    with (length closed + 0)%nat by lia.
  rewrite list_lookup_middle by lia. simpl default.
  now rewrite insert_app_r.
Qed.

End WithCurrentPage.

(** The three ways through [commit]: it throws, it rolls over to a new
    page, or it appends to the current page. *)
Lemma commit_snoc (closed : list string) (cur : string)
    (this : PagedDuplexStream) (node : DocumentNode) :
  pages this = closed ++ [cur] ->
  commit node this =
  if strlen cur + strlen (buffer this) >? sizeLimit this then
    if strlen cur =? 0 then
      if strlen (buffer this) >? sizeLimit this
      then (Throw OversizeCommit, this)
      else (Normal tt, committed node (closed ++ [cur +++ buffer this]) this)
    else (Normal tt, committed node (closed ++ [cur; buffer this]) this)
  else (Normal tt, committed node (closed ++ [cur +++ buffer this]) this).
Proof.
  intros Hp. unfold commit, traceSync, bind at 1.
  rewrite (isPageAndBufferOverSize_snoc closed cur this Hp).
  destruct (strlen cur + strlen (buffer this) >? sizeLimit this).
  - unfold bind at 1. unfold bind at 1.
    rewrite (currentPage_snoc closed cur this Hp). simpl lengthOf.
    unfold bind at 1. unfold ret at 1. unfold bind at 1. unfold get at 1.
    destruct (strlen cur =? 0) eqn:Hcur; cbn [andb].
    + destruct (strlen (buffer this) >? sizeLimit this); [reflexivity|].
      rewrite (ensureNewPage_snoc closed cur this Hp), Hcur.
      unfold bind, get.
      now rewrite (appendToCurrentPage_snoc closed cur this Hp).
    + rewrite (ensureNewPage_snoc closed cur this Hp), Hcur.
      unfold bind, get.
      rewrite (appendToCurrentPage_snoc (closed ++ [cur]) EmptyString)
        by (simpl; now rewrite <- app_assoc).
      simpl. unfold committed. now rewrite <- app_assoc.
  - unfold bind, ret, get.
    now rewrite (appendToCurrentPage_snoc closed cur this Hp).
Qed.

(** On an array without elements there is no current page: every method
    that reads its length throws before it changes anything. *)
Lemma currentPage_nil (this : PagedDuplexStream) :
  pages this = [] -> currentPage this = (Normal None, this).
Proof.
  intros Hp. unfold currentPage, bind, get, ret. now rewrite Hp.
Qed.

Lemma ensureNewPage_nil (this : PagedDuplexStream) :
  pages this = [] -> ensureNewPage this = (Throw UndefinedLength, this).
Proof.
  intros Hp. unfold ensureNewPage, traceSync, bind.
  now rewrite (currentPage_nil this Hp).
Qed.

Lemma commit_nil (this : PagedDuplexStream) (node : DocumentNode) :
  pages this = [] -> commit node this = (Throw UndefinedLength, this).
Proof.
  intros Hp. unfold commit, isPageAndBufferOverSize, traceSync, bind.
  now rewrite (currentPage_nil this Hp).
Qed.

(** [commit] throws before it assigns to any field. *)
Lemma commit_throw_unchanged (this this' : PagedDuplexStream)
    (node : DocumentNode) (e : Exception) :
  commit node this = (Throw e, this') -> this' = this.
Proof.
  destruct (snoc_or_nil (pages this)) as [Hp | (closed & cur & Hp)].
  - rewrite (commit_nil this node Hp). congruence.
  - rewrite (commit_snoc closed cur this node Hp).
    repeat match goal with
           | |- context [if ?b then _ else _] => destruct b
           end; congruence.
Qed.

(** ** One call *)

Lemma length_two_more {A} (x y : A) (l : list A) :
  (Z.of_nat (length (x :: y :: l)) <? 2) = false.
Proof. apply Z.ltb_ge. simpl length. lia. Qed.

Lemma readPage_cases (this : PagedDuplexStream) :
  readPage this =
  match pages this with
  | first :: second :: rest =>
      (Normal (Some first), set_pages (second :: rest) this)
  | _ => (Normal None, this)
  end.
Proof.
  unfold readPage, traceSync, bind, get.
  destruct (pages this) as [|first [|second rest]]; try reflexivity.
  now rewrite length_two_more.
Qed.

Lemma peekPage_cases (this : PagedDuplexStream) :
  peekPage this =
  match pages this with
  | first :: second :: rest => (Normal (Some first), this)
  | _ => (Normal None, this)
  end.
Proof.
  unfold peekPage, traceSync, bind, get.
  destruct (pages this) as [|first [|second rest]]; try reflexivity.
  now rewrite length_two_more.
Qed.

Lemma invoke_sizeLimit (c : Call) (this : PagedDuplexStream) :
  sizeLimit (snd (invoke c this)) = sizeLimit this.
Proof.
  destruct c; try reflexivity; unfold invoke, bind.
  - unfold isPageAndBufferOverSize, traceSync, bind, currentPage, get, ret.
    simpl. now destruct (array_at _ _).
  - destruct (snoc_or_nil (pages this)) as [Hp | (closed & cur & Hp)].
    + now rewrite (ensureNewPage_nil this Hp).
    + rewrite (ensureNewPage_snoc closed cur this Hp).
      now destruct (strlen cur =? 0).
  - destruct (snoc_or_nil (pages this)) as [Hp | (closed & cur & Hp)].
    + now rewrite (commit_nil this node Hp).
    + rewrite (commit_snoc closed cur this node Hp).
      repeat match goal with
             | |- context [if ?b then _ else _] => destruct b
             end; reflexivity.
  - rewrite peekPage_cases. now destruct (pages this) as [|? [|? ?]].
  - rewrite readPage_cases. now destruct (pages this) as [|? [|? ?]].
Qed.

Lemma invoke_pagesStep (c : Call) (this : PagedDuplexStream) :
  pagesStep (buffer this) (pages this) (pages (snd (invoke c this))).
Proof.
  destruct c; try apply step_same; unfold invoke, bind.
  - unfold isPageAndBufferOverSize, traceSync, bind, currentPage, get, ret.
    simpl. destruct (array_at _ _); apply step_same.
  - destruct (snoc_or_nil (pages this)) as [Hp | (closed & cur & Hp)].
    + rewrite (ensureNewPage_nil this Hp). apply step_same.
    + rewrite (ensureNewPage_snoc closed cur this Hp).
      destruct (strlen cur =? 0) eqn:E; simpl; [apply step_same|].
      rewrite Hp. apply step_push. intros ->. discriminate.
  - destruct (snoc_or_nil (pages this)) as [Hp | (closed & cur & Hp)].
    + rewrite (commit_nil this node Hp). apply step_same.
    + rewrite (commit_snoc closed cur this node Hp).
      destruct (strlen cur =? 0) eqn:E;
      repeat match goal with
             | |- context [if ?b then _ else _] => destruct b
             end; simpl; rewrite ?Hp;
        try apply step_same; try apply step_append.
      apply step_rollover. intros ->. discriminate.
  - rewrite peekPage_cases.
    destruct (pages this) as [|first [|second rest]] eqn:E; simpl;
      rewrite E; apply step_same.
  - rewrite readPage_cases.
    destruct (pages this) as [|first [|second rest]] eqn:E; simpl;
      rewrite ?E; try apply step_same. apply step_shift.
Qed.

(** ** Closed pages have text *)

Lemma closedPagesNonEmpty_snoc (closed : list string) (cur : string) :
  closedPagesNonEmpty (closed ++ [cur]) <->
  Forall (fun p => p <> EmptyString) closed.
Proof.
  split.
  - intros (closed' & cur' & Heq & H).
    apply app_inj_tail in Heq. destruct Heq as [-> _]. exact H.
  - intros H. exists closed, cur. auto.
Qed.

Lemma pagesStep_closedPagesNonEmpty (buf : string) (l l' : list string) :
  pagesStep buf l l' -> closedPagesNonEmpty l -> closedPagesNonEmpty l'.
Proof.
  intros Hstep. destruct Hstep as
    [l | closed cur Hcur | closed cur | closed cur Hcur | first second rest];
    intros Hinv.
  - exact Hinv.
  - apply closedPagesNonEmpty_snoc in Hinv.
    change [cur; EmptyString] with ([cur] ++ [EmptyString]).
    rewrite app_assoc. apply closedPagesNonEmpty_snoc.
    apply Forall_app. split; [exact Hinv | now constructor].
  - apply closedPagesNonEmpty_snoc in Hinv.
    now apply closedPagesNonEmpty_snoc.
  - apply closedPagesNonEmpty_snoc in Hinv.
    change [cur; buf] with ([cur] ++ [buf]).
    rewrite app_assoc. apply closedPagesNonEmpty_snoc.
    apply Forall_app. split; [exact Hinv | now constructor].
  - destruct Hinv as (closed & cur & Heq & H).
    destruct closed as [|p closed]; [discriminate|].
    injection Heq as -> Heq. exists closed, cur.
    split; [exact Heq | now inversion H].
Qed.

Lemma run_closedPagesNonEmpty (cs : list Call) (this : PagedDuplexStream) :
  closedPagesNonEmpty (pages this) ->
  closedPagesNonEmpty (pages (run cs this)).
Proof.
  revert this. induction cs as [|c cs IH]; intros this Hinv; simpl.
  - exact Hinv.
  - apply IH. eapply pagesStep_closedPagesNonEmpty; [|exact Hinv].
    apply invoke_pagesStep.
Qed.

Lemma constructor_closedPagesNonEmpty (limit : Z) :
  closedPagesNonEmpty (pages (constructor limit)).
Proof. exists [], EmptyString. split; [reflexivity | constructor]. Qed.

Lemma run_sizeLimit (cs : list Call) (this : PagedDuplexStream) :
  sizeLimit (run cs this) = sizeLimit this.
Proof.
  revert this. induction cs as [|c cs IH]; intros this; simpl.
  - reflexivity.
  - now rewrite IH, invoke_sizeLimit.
Qed.

(** An empty page of such an array is its last page. *)
Lemma closedPagesNonEmpty_empty_last (l : list string) (i : nat) :
  closedPagesNonEmpty l -> l !! i = Some EmptyString -> S i = length l.
Proof.
  intros (closed & cur & -> & H) Hi.
  rewrite length_app. simpl.
  destruct (Nat.lt_ge_cases i (length closed)) as [Hlt | Hge].
  - rewrite lookup_app_l in Hi by exact Hlt.
    rewrite Forall_lookup in H. now specialize (H i _ Hi).
  - apply lookup_lt_Some in Hi. rewrite length_app in Hi. simpl in Hi. lia.
Qed.

Lemma closedPagesNonEmpty_noAdjacentEmpty (l : list string) :
  closedPagesNonEmpty l -> noAdjacentEmpty l.
Proof.
  intros Hinv i p q Hp Hq [-> ->].
  pose proof (closedPagesNonEmpty_empty_last l i Hinv Hp) as Hi.
  apply lookup_lt_Some in Hq. lia.
Qed.

(** ** Pages within the size limit *)

Lemma pagesWithin_snoc (limit : Z) (l : list string) (p : string) :
  pagesWithin limit (l ++ [p]) <-> pagesWithin limit l /\ strlen p <= limit.
Proof.
  unfold pagesWithin. rewrite Forall_app, Forall_singleton. reflexivity.
Qed.

(** A [commit] of an accumulator that fits in a page keeps every page
    within the limit; so does every other call. *)
Lemma invoke_pagesWithin (c : Call) (this : PagedDuplexStream) :
  0 <= sizeLimit this ->
  commitsFit [c] this = true ->
  pagesWithin (sizeLimit this) (pages this) ->
  pagesWithin (sizeLimit this) (pages (snd (invoke c this))).
Proof.
  intros Hlimit Hfit Hinv.
  destruct c; try exact Hinv; unfold invoke, bind.
  - unfold isPageAndBufferOverSize, traceSync, bind, currentPage, get, ret.
    simpl. now destruct (array_at _ _).
  - destruct (snoc_or_nil (pages this)) as [Hp | (closed & cur & Hp)].
    + now rewrite (ensureNewPage_nil this Hp).
    + rewrite (ensureNewPage_snoc closed cur this Hp).
      destruct (strlen cur =? 0); simpl; [exact Hinv|].
      change [cur; EmptyString] with ([cur] ++ [EmptyString]).
      rewrite app_assoc, <- Hp. apply pagesWithin_snoc.
      split; [exact Hinv | exact Hlimit].
  - simpl in Hfit. rewrite andb_true_r in Hfit. apply Z.leb_le in Hfit.
    destruct (snoc_or_nil (pages this)) as [Hp | (closed & cur & Hp)].
    + now rewrite (commit_nil this node Hp).
    + rewrite (commit_snoc closed cur this node Hp).
      rewrite Hp in Hinv. apply pagesWithin_snoc in Hinv.
      destruct Hinv as [Hclosed Hcur].
      rewrite !Z.gtb_ltb.
      destruct (Z.ltb_spec (sizeLimit this) (strlen cur + strlen (buffer this)))
        as [Hover | Hunder].
      * destruct (Z.eqb_spec (strlen cur) 0) as [Hzero | Hnonzero].
        -- destruct (Z.ltb_spec (sizeLimit this) (strlen (buffer this)));
             [lia|].
           simpl. apply pagesWithin_snoc. split; [exact Hclosed|].
           rewrite strlen_append. lia.
        -- simpl. change [cur; buffer this] with ([cur] ++ [buffer this]).
           rewrite app_assoc. apply pagesWithin_snoc.
           split; [|exact Hfit]. apply pagesWithin_snoc. now split.
      * simpl. apply pagesWithin_snoc. split; [exact Hclosed|].
        rewrite strlen_append. lia.
  - rewrite peekPage_cases.
    destruct (pages this) as [|first [|second rest]] eqn:E; simpl;
      rewrite E; exact Hinv.
  - rewrite readPage_cases.
    destruct (pages this) as [|first [|second rest]] eqn:E; simpl;
      rewrite ?E; try exact Hinv.
    now inversion Hinv.
Qed.

Lemma commitsFit_app (cs1 cs2 : list Call) (this : PagedDuplexStream) :
  commitsFit (cs1 ++ cs2) this =
  commitsFit cs1 this && commitsFit cs2 (run cs1 this).
Proof.
  revert this. induction cs1 as [|c cs1 IH]; intros this; simpl.
  - reflexivity.
  - now rewrite IH, andb_assoc.
Qed.

Lemma run_pagesWithin (cs : list Call) (this : PagedDuplexStream) :
  0 <= sizeLimit this ->
  commitsFit cs this = true ->
  pagesWithin (sizeLimit this) (pages this) ->
  pagesWithin (sizeLimit this) (pages (run cs this)).
Proof.
  revert this. induction cs as [|c cs IH]; intros this Hlimit Hfit Hinv.
  - exact Hinv.
  - simpl in Hfit. apply andb_true_iff in Hfit. destruct Hfit as [Hc Hcs].
    simpl. rewrite <- (invoke_sizeLimit c this). apply IH.
    + now rewrite invoke_sizeLimit.
    + exact Hcs.
    + rewrite invoke_sizeLimit. apply invoke_pagesWithin; auto.
      simpl. now rewrite Hc.
Qed.

(** ** No text is lost *)

Ltac text_norm :=
  repeat first
    [ rewrite concatPages_app
    | rewrite append_assoc
    | rewrite append_empty_r
    | progress cbn [concatPages foldr String.append app fst snd
                    pages buffer set_pages set_buffer committed] ].

Lemma written_cons (c : Call) (cs : list Call) :
  written (c :: cs) = written [c] +++ written cs.
Proof.
  destruct c; simpl; try reflexivity. now rewrite append_empty_r.
Qed.

Lemma drained_cons (c : Call) (cs : list Call) (this : PagedDuplexStream) :
  drained (c :: cs) this = drained [c] this ++ drained cs (snd (invoke c this)).
Proof. simpl. now rewrite app_nil_r. Qed.

Lemma invoke_conserves (c : Call) (this : PagedDuplexStream) :
  concatPages (drained [c] this)
    +++ concatPages (pages (snd (invoke c this)))
    +++ buffer (snd (invoke c this)) =
  concatPages (pages this) +++ buffer this +++ written [c].
Proof.
  destruct c; simpl drained; simpl written; unfold invoke, bind.
  - simpl. now text_norm.
  - simpl. now text_norm.
  - unfold isPageAndBufferOverSize, traceSync, bind, currentPage, get, ret.
    simpl. destruct (array_at _ _); simpl; now text_norm.
  - destruct (snoc_or_nil (pages this)) as [Hp | (closed & cur & Hp)].
    + rewrite (ensureNewPage_nil this Hp). simpl. now text_norm.
    + rewrite (ensureNewPage_snoc closed cur this Hp).
      destruct (strlen cur =? 0); simpl; rewrite Hp; now text_norm.
  - destruct (snoc_or_nil (pages this)) as [Hp | (closed & cur & Hp)].
    + rewrite (commit_nil this node Hp). simpl. now text_norm.
    + rewrite (commit_snoc closed cur this node Hp).
      repeat match goal with
             | |- context [if ?b then _ else _] => destruct b
             end; simpl; rewrite Hp; now text_norm.
  - simpl. now text_norm.
  - rewrite peekPage_cases.
    destruct (pages this) as [|first [|second rest]] eqn:E; simpl;
      rewrite E; now text_norm.
  - rewrite readPage_cases.
    destruct (pages this) as [|first [|second rest]] eqn:E; simpl;
      rewrite ?E; now text_norm.
Qed.

(** The drained pages, the pages still queued and the accumulator hold,
    in this order, the text that was there at the start followed by the
    text written since. *)
Lemma run_conserves (cs : list Call) (this : PagedDuplexStream) :
  concatPages (drained cs this)
    +++ concatPages (pages (run cs this))
    +++ buffer (run cs this) =
  concatPages (pages this) +++ buffer this +++ written cs.
Proof.
  revert this. induction cs as [|c cs IH]; intros this.
  - simpl. now rewrite append_empty_r.
  - rewrite written_cons, drained_cons.
    simpl run. rewrite concatPages_app, append_assoc, IH.
    rewrite <- !append_assoc. f_equal.
    rewrite !append_assoc. apply invoke_conserves.
Qed.

(** ** Draining *)

Lemma invoke_readPage_ready (first second : string) (rest : list string)
    (this : PagedDuplexStream) :
  pages this = first :: second :: rest ->
  invoke ReadPage this =
  (Normal (VPage (Some first)), set_pages (second :: rest) this).
Proof.
  intros Hp. unfold invoke, bind. rewrite readPage_cases, Hp. reflexivity.
Qed.

(** As many reads as there are closed pages hand them out oldest first
    and leave the current page alone in the array. *)
Lemma drained_closed (closed : list string) (cur : string)
    (this : PagedDuplexStream) :
  pages this = closed ++ [cur] ->
  drained (replicate (length closed) ReadPage) this = closed /\
  run (replicate (length closed) ReadPage) this = set_pages [cur] this.
Proof.
  revert this. induction closed as [|p closed IH]; intros this Hp.
  - simpl. split; [reflexivity|]. destruct this as [b l n z].
    simpl in Hp. unfold set_pages. simpl. now rewrite Hp.
  - assert (Hsnd : exists second rest, closed ++ [cur] = second :: rest).
    { destruct closed; simpl; eauto. }
    destruct Hsnd as (second & rest & Hsnd).
    assert (Hread : invoke ReadPage this =
                    (Normal (VPage (Some p)), set_pages (closed ++ [cur]) this)).
    { rewrite Hsnd. apply invoke_readPage_ready. simpl in Hp.
      now rewrite Hp, Hsnd. }
    cbn [length replicate drained run]. rewrite Hread. cbn [fst snd app].
    destruct (IH (set_pages (closed ++ [cur]) this) eq_refl) as [Hd Hr].
    rewrite Hd, Hr. split; reflexivity.
Qed.

(** On the rollover path the accumulator is not compared with the size
    limit: after a current page that has text, an accumulator of any
    length becomes the new current page. *)
Lemma commit_rollover_unchecked (closed : list string) (cur : string)
    (this : PagedDuplexStream) (node : DocumentNode) :
  pages this = closed ++ [cur] ->
  cur <> EmptyString ->
  sizeLimit this < strlen (buffer this) ->
  commit node this =
  (Normal tt, committed node (closed ++ [cur; buffer this]) this).
Proof.
  intros Hp Hcur Hbuf. rewrite (commit_snoc closed cur this node Hp).
  assert (Hlen : 0 < strlen cur).
  { destruct cur; [contradiction | unfold strlen; simpl; lia]. }
  rewrite Z.gtb_ltb.
  destruct (Z.ltb_spec (sizeLimit this) (strlen cur + strlen (buffer this)));
    [|lia].
  destruct (Z.eqb_spec (strlen cur) 0); [lia | reflexivity].
Qed.

(** ** The properties of the stream *)

(** C1.  When [commit] throws its oversize error, the stream is in the
    state it was in before the call: the accumulator holds the same
    uncommitted text, the page array has the same pages in the same order,
    and the last committed node is the same. *)
Theorem commit_oversize_leaves_stream_unchanged
    (this this' : PagedDuplexStream) (node : DocumentNode) :
  commit node this = (Throw OversizeCommit, this') ->
  buffer this' = buffer this /\
  pages this' = pages this /\
  lastCommittedNode this' = lastCommittedNode this /\
  this' = this.
Proof.
  intros H. apply commit_throw_unchanged in H. subst this'. auto.
Qed.

(** What [commit] returns on a stream with a current page. *)
Lemma commit_throws_iff_snoc (closed : list string) (cur : string)
    (this : PagedDuplexStream) (node : DocumentNode) :
  pages this = closed ++ [cur] ->
  fst (commit node this) = Throw OversizeCommit <->
  cur = EmptyString /\ sizeLimit this < strlen (buffer this).
Proof.
  intros Hp. rewrite (commit_snoc closed cur this node Hp), !Z.gtb_ltb.
  destruct (Z.eqb_spec (strlen cur) 0) as [Hzero | Hnonzero].
  - rewrite Hzero, Z.add_0_l. apply strlen_zero in Hzero.
    destruct (Z.ltb_spec (sizeLimit this) (strlen (buffer this)));
      simpl; split; auto; try discriminate. intros [_ ?]. lia.
  - assert (cur <> EmptyString) by (intros ->; now apply Hnonzero).
    destruct (sizeLimit this <? strlen cur + strlen (buffer this));
      simpl; split; try discriminate; intros [? _]; contradiction.
Qed.

(** C3.  In every state a stream can reach, [commit] throws its oversize
    error exactly when the current page is empty and the accumulator
    alone is longer than the size limit, and none of the other methods
    throws. *)
Theorem commit_is_the_only_method_that_throws
    (limit : Z) (cs : list Call) :
  let this := run cs (constructor limit) in
  (forall node,
     fst (commit node this) = Throw OversizeCommit <->
     fst (currentPage this) = Normal (Some EmptyString) /\
     sizeLimit this < strlen (buffer this)) /\
  (forall str, isNormal (fst (writeString str this)) = true) /\
  isNormal (fst (getPosition this)) = true /\
  isNormal (fst (isPageAndBufferOverSize this)) = true /\
  isNormal (fst (ensureNewPage this)) = true /\
  isNormal (fst (getLastCommittedNode this)) = true /\
  isNormal (fst (peekPage this)) = true /\
  isNormal (fst (readPage this)) = true.
Proof.
  intros this.
  destruct (run_closedPagesNonEmpty cs (constructor limit)
              (constructor_closedPagesNonEmpty limit))
    as (closed & cur & Hp & _).
  fold this in Hp.
  split; [|repeat split; try reflexivity].
  - intros node. rewrite (currentPage_snoc closed cur this Hp).
    rewrite (commit_throws_iff_snoc closed cur this node Hp). simpl fst.
    split; intros [Hcur Hbuf]; split; congruence.
  - now rewrite (isPageAndBufferOverSize_snoc closed cur this Hp).
  - now rewrite (ensureNewPage_snoc closed cur this Hp).
  - rewrite peekPage_cases. now destruct (pages this) as [|? [|? ?]].
  - rewrite readPage_cases. now destruct (pages this) as [|? [|? ?]].
Qed.

(** C4.  On a stream made with a size limit that is not negative, as long
    as no [commit] is made while the accumulator is longer than the size
    limit, every page is within the size limit after every call. *)
Theorem pages_stay_within_limit (limit : Z) (cs pre : list Call) :
  0 <= limit ->
  commitsFit cs (constructor limit) = true ->
  pre `prefix_of` cs ->
  pagesWithin limit (pages (run pre (constructor limit))).
Proof.
  intros Hlimit Hfit [rest ->].
  rewrite commitsFit_app in Hfit. apply andb_true_iff in Hfit.
  destruct Hfit as [Hfit _].
  apply (run_pagesWithin pre (constructor limit) Hlimit Hfit).
  constructor; [exact Hlimit | constructor].
Qed.

(** C5, as amended.  As long as no [commit] is made while the accumulator
    is longer than the size limit, the pages drained by [readPage], then
    the pages still in the array, then the text still in the accumulator
    are together the text passed to [writeString], in order; when the
    accumulator is empty the pages alone are that text. *)
Theorem drained_pages_and_accumulator_are_written_text
    (limit : Z) (cs : list Call) :
  commitsFit cs (constructor limit) = true ->
  let this := run cs (constructor limit) in
  concatPages (drained cs (constructor limit))
    +++ concatPages (pages this) +++ buffer this = written cs /\
  (buffer this = EmptyString ->
   concatPages (drained cs (constructor limit))
     +++ concatPages (pages this) = written cs).
Proof.
  intros _ this.
  pose proof (run_conserves cs (constructor limit)) as H.
  fold this in H. simpl in H. split; [exact H|].
  intros Hb. rewrite Hb, append_empty_r in H. exact H.
Qed.

(** C6.  With fewer than two pages [readPage] returns [undefined] and
    changes nothing.  With two or more it returns the first page and
    removes that page only: the later pages keep their order and text, and
    the accumulator, the last committed node and the size limit stay.
    Reads in a row return the closed pages oldest first. *)
Theorem readPage_dequeues_oldest (this : PagedDuplexStream) :
  ((length (pages this) < 2)%nat -> readPage this = (Normal None, this)) /\
  ((2 <= length (pages this))%nat ->
   exists first rest,
     pages this = first :: rest /\
     fst (readPage this) = Normal (Some first) /\
     pages (snd (readPage this)) = rest /\
     buffer (snd (readPage this)) = buffer this /\
     lastCommittedNode (snd (readPage this)) = lastCommittedNode this /\
     sizeLimit (snd (readPage this)) = sizeLimit this) /\
  (forall closed cur,
     pages this = closed ++ [cur] ->
     drained (replicate (length closed) ReadPage) this = closed /\
     run (replicate (length closed) ReadPage) this = set_pages [cur] this).
Proof.
  rewrite readPage_cases. split; [|split].
  - destruct (pages this) as [|first [|second rest]]; simpl;
      try reflexivity. lia.
  - destruct (pages this) as [|first [|second rest]]; simpl; try lia.
    intros _. exists first, (second :: rest). repeat split.
  - intros closed cur Hp. now apply drained_closed.
Qed.

(** C7, as amended.  Whatever calls are made on a new stream, no two
    neighbouring pages are both empty, and an empty page can only be the
    last page of the array, the current page. *)
Theorem empty_page_is_current_page (limit : Z) (cs : list Call) :
  let this := run cs (constructor limit) in
  noAdjacentEmpty (pages this) /\
  (forall i, pages this !! i = Some EmptyString ->
             S i = length (pages this)).
Proof.
  intros this.
  pose proof (run_closedPagesNonEmpty cs (constructor limit)
                (constructor_closedPagesNonEmpty limit)) as Hinv.
  fold this in Hinv. split.
  - now apply closedPagesNonEmpty_noAdjacentEmpty.
  - intros i. now apply closedPagesNonEmpty_empty_last.
Qed.

(** C8.  Whatever calls are made on a new stream, [peekPage] and
    [readPage] do not return the empty string. *)
Theorem ready_page_is_never_empty (limit : Z) (cs : list Call) :
  let this := run cs (constructor limit) in
  fst (peekPage this) <> Normal (Some EmptyString) /\
  fst (readPage this) <> Normal (Some EmptyString).
Proof.
  intros this.
  pose proof (run_closedPagesNonEmpty cs (constructor limit)
                (constructor_closedPagesNonEmpty limit)) as Hinv.
  fold this in Hinv.
  assert (Hfirst : forall second rest,
             pages this <> EmptyString :: second :: rest).
  { intros second rest Hp.
    pose proof (closedPagesNonEmpty_empty_last (pages this) 0 Hinv) as H.
    rewrite Hp in H. specialize (H eq_refl). discriminate. }
  rewrite peekPage_cases, readPage_cases.
  destruct (pages this) as [|first [|second rest]]; simpl;
    split; try discriminate; intros [= ->]; now apply (Hfirst second rest).
Qed.

(** C9.  When the lengths of the current page and of the accumulator add
    up to exactly the size limit, [isPageAndBufferOverSize] is [false] and
    [commit] appends the accumulator to the current page without pushing
    a page: the array has as many pages as before. *)
Theorem commit_at_exact_limit_appends
    (closed : list string) (cur : string)
    (this : PagedDuplexStream) (node : DocumentNode) :
  pages this = closed ++ [cur] ->
  strlen cur + strlen (buffer this) = sizeLimit this ->
  isPageAndBufferOverSize this = (Normal false, this) /\
  commit node this =
    (Normal tt, committed node (closed ++ [cur +++ buffer this]) this) /\
  length (pages (snd (commit node this))) = length (pages this).
Proof.
  intros Hp Hsum.
  assert (Hover : (strlen cur + strlen (buffer this) >? sizeLimit this)
                  = false).
  { rewrite Z.gtb_ltb. apply Z.ltb_ge. lia. }
  rewrite (isPageAndBufferOverSize_snoc closed cur this Hp).
  rewrite (commit_snoc closed cur this node Hp), Hover.
  repeat split. simpl. now rewrite Hp, !length_app.
Qed.

(** C10.  On a stream whose current page is within the size limit and
    whose accumulator is empty, [commit] returns, leaves the pages and the
    accumulator as they are, and records the node. *)
Theorem commit_of_nothing_records_node
    (closed : list string) (cur : string)
    (this : PagedDuplexStream) (node : DocumentNode) :
  pages this = closed ++ [cur] ->
  strlen cur <= sizeLimit this ->
  buffer this = EmptyString ->
  commit node this = (Normal tt, set_lastCommittedNode (Some node) this) /\
  pages (snd (commit node this)) = pages this /\
  buffer (snd (commit node this)) = buffer this /\
  lastCommittedNode (snd (commit node this)) = Some node /\
  sizeLimit (snd (commit node this)) = sizeLimit this.
Proof.
  intros Hp Hcur Hbuf.
  assert (Hover : (strlen cur + strlen (buffer this) >? sizeLimit this)
                  = false).
  { rewrite Hbuf, Z.gtb_ltb. apply Z.ltb_ge.
    change (strlen EmptyString) with 0. lia. }
  rewrite (commit_snoc closed cur this node Hp), Hover.
  unfold committed, set_lastCommittedNode.
  rewrite Hbuf, append_empty_r, <- Hp, <- Hbuf. simpl. repeat split.
Qed.

(** ** Further properties of the methods *)

Lemma invoke_query_unchanged (c : Call) (this : PagedDuplexStream) :
  isQuery c = true -> snd (invoke c this) = this.
Proof.
  destruct c; try discriminate; intros _; try reflexivity;
    unfold invoke, bind.
  - unfold isPageAndBufferOverSize, traceSync, bind, currentPage, get, ret.
    simpl. now destruct (array_at _ _).
  - rewrite peekPage_cases. now destruct (pages this) as [|? [|? ?]].
Qed.

Lemma set_buffer_same (this : PagedDuplexStream) :
  set_buffer (buffer this) this = this.
Proof. now destruct this. Qed.

(** X1.  [writeString] calls chain: writing [a] and then [b] is writing
    [a + b]; the position moves on by the length written; writing the
    empty string changes nothing. *)
Theorem writeString_chains (this : PagedDuplexStream) (a b : string) :
  writeString b (snd (writeString a this)) = writeString (a +++ b) this /\
  fst (getPosition (snd (writeString a this))) =
    Normal (strlen (buffer this) + strlen a) /\
  writeString EmptyString this = (Normal tt, this).
Proof.
  unfold writeString, getPosition, traceSync, bind, get, modify, ret.
  cbn [fst snd buffer set_buffer].
  rewrite append_assoc, strlen_append, append_empty_r.
  repeat split. now rewrite set_buffer_same.
Qed.

(** X2.  The calls that only ask can be left out of a session: the stream
    ends in the same state and the same pages are drained. *)
Theorem queries_can_be_left_out (cs : list Call) (this : PagedDuplexStream) :
  run (List.filter (fun c => negb (isQuery c)) cs) this = run cs this /\
  drained (List.filter (fun c => negb (isQuery c)) cs) this =
    drained cs this.
Proof.
  revert this. induction cs as [|c cs IH]; intros this; [now split|].
  cbn [List.filter]. destruct (isQuery c) eqn:Hq; cbn [negb].
  - rewrite drained_cons. cbn [run].
    rewrite (invoke_query_unchanged c this Hq).
    destruct (IH this) as [-> ->]. split; [reflexivity|].
    destruct c; try discriminate; reflexivity.
  - cbn [run drained].
    destruct (IH (snd (invoke c this))) as [-> ->]. now split.
Qed.

(** X3.  [peekPage] changes nothing and returns what the next [readPage]
    returns. *)
Theorem peekPage_previews_readPage (this : PagedDuplexStream) :
  snd (peekPage this) = this /\
  fst (peekPage this) = fst (readPage this).
Proof.
  rewrite peekPage_cases, readPage_cases.
  destruct (pages this) as [|first [|second rest]]; now split.
Qed.

(** X4.  A second [ensureNewPage] in a row changes nothing; on a stream
    that has a current page the call returns, the current page is empty
    afterwards, and the accumulator and the last committed node stay. *)
Theorem ensureNewPage_idempotent (this : PagedDuplexStream) :
  snd (ensureNewPage (snd (ensureNewPage this))) =
    snd (ensureNewPage this) /\
  (pages this <> [] ->
   fst (ensureNewPage this) = Normal tt /\
   fst (currentPage (snd (ensureNewPage this))) =
     Normal (Some EmptyString) /\
   buffer (snd (ensureNewPage this)) = buffer this /\
   lastCommittedNode (snd (ensureNewPage this)) = lastCommittedNode this).
Proof.
  destruct (snoc_or_nil (pages this)) as [Hp | (closed & cur & Hp)].
  - rewrite (ensureNewPage_nil this Hp). simpl.
    rewrite (ensureNewPage_nil this Hp). split; [reflexivity|].
    intros H. contradiction.
  - rewrite (ensureNewPage_snoc closed cur this Hp).
    destruct (strlen cur =? 0) eqn:Hb; cbn [fst snd].
    + rewrite (ensureNewPage_snoc closed cur this Hp), Hb. cbn [fst snd].
      split; [reflexivity|].
      intros _. rewrite (currentPage_snoc closed cur this Hp).
      apply Z.eqb_eq, strlen_zero in Hb. subst cur. now repeat split.
    + rewrite (ensureNewPage_snoc (closed ++ [cur]) EmptyString)
        by (simpl; now rewrite <- app_assoc).
      split; [reflexivity|]. intros _.
      rewrite (currentPage_snoc (closed ++ [cur]) EmptyString)
        by (simpl; now rewrite <- app_assoc).
      now repeat split.
Qed.

(** X5.  A [commit] that returns has pushed a page exactly when
    [isPageAndBufferOverSize] was true: the accumulator is then the new
    current page, after the old pages as they were; otherwise it is
    appended to the current page. *)
Theorem commit_rolls_over_iff_over_size
    (closed : list string) (cur : string)
    (this : PagedDuplexStream) (node : DocumentNode) :
  pages this = closed ++ [cur] ->
  fst (commit node this) = Normal tt ->
  (length (pages (snd (commit node this))) = S (length (pages this)) <->
   fst (isPageAndBufferOverSize this) = Normal true) /\
  (fst (isPageAndBufferOverSize this) = Normal true ->
   pages (snd (commit node this)) = pages this ++ [buffer this]) /\
  (fst (isPageAndBufferOverSize this) = Normal false ->
   pages (snd (commit node this)) = closed ++ [cur +++ buffer this]).
Proof.
  intros Hp. rewrite (isPageAndBufferOverSize_snoc closed cur this Hp).
  rewrite (commit_snoc closed cur this node Hp), Hp, !Z.gtb_ltb.
  cbn [fst].
  destruct (Z.ltb_spec (sizeLimit this) (strlen cur + strlen (buffer this)))
    as [Hover | Hunder].
  - destruct (Z.eqb_spec (strlen cur) 0) as [Hzero | Hnonzero].
    + destruct (Z.ltb_spec (sizeLimit this) (strlen (buffer this)));
        [discriminate | lia].
    + intros _. cbn [fst snd pages committed].
      change [cur; buffer this] with ([cur] ++ [buffer this]).
      rewrite !app_assoc, !length_app. cbn [length].
      repeat split; try discriminate; intros; lia.
  - intros _. cbn [fst snd pages committed]. rewrite !length_app.
    cbn [length]. repeat split; try discriminate; intros; lia.
Qed.

(** The stream is stuck: its current page is empty and its accumulator is
    longer than the size limit. *)
Lemma invoke_stuck (c : Call) (this : PagedDuplexStream) :
  (exists closed, pages this = closed ++ [EmptyString]) ->
  sizeLimit this < strlen (buffer this) ->
  (exists closed, pages (snd (invoke c this)) = closed ++ [EmptyString]) /\
  sizeLimit (snd (invoke c this)) < strlen (buffer (snd (invoke c this))).
Proof.
  intros [closed Hp] Hbuf. rewrite invoke_sizeLimit.
  destruct (isQuery c) eqn:Hq.
  { rewrite (invoke_query_unchanged c this Hq). eauto. }
  destruct c; try discriminate; unfold invoke, bind.
  - cbn. rewrite strlen_append.
    split; [eauto|]. unfold strlen in *. lia.
  - rewrite (ensureNewPage_snoc closed EmptyString this Hp). cbn. eauto.
  - rewrite (commit_snoc closed EmptyString this node Hp).
    change (strlen EmptyString) with 0. rewrite Z.add_0_l, Z.gtb_ltb.
    destruct (Z.ltb_spec (sizeLimit this) (strlen (buffer this))); [|lia].
    cbn. eauto.
  - rewrite readPage_cases.
    destruct (pages this) as [|first [|second rest]] eqn:E; cbn;
      rewrite ?E; eauto.
    destruct closed as [|p closed']; [discriminate|].
    injection Hp as _ Hp. eauto.
Qed.

(** X6.  Once [commit] has thrown its oversize error it throws it on
    every later call, whatever is called in between: no method takes text
    out of the accumulator or puts text in the current page. *)
Theorem oversize_commit_is_final
    (this : PagedDuplexStream) (node node' : DocumentNode)
    (cs : list Call) :
  fst (commit node this) = Throw OversizeCommit ->
  fst (commit node' (run cs this)) = Throw OversizeCommit.
Proof.
  intros Hthrow.
  assert (Hstuck : (exists closed, pages this = closed ++ [EmptyString]) /\
                   sizeLimit this < strlen (buffer this)).
  { destruct (snoc_or_nil (pages this)) as [Hp | (closed & cur & Hp)].
    - rewrite (commit_nil this node Hp) in Hthrow. discriminate.
    - apply (commit_throws_iff_snoc closed cur this node Hp) in Hthrow.
      destruct Hthrow as [-> Hbuf]. eauto. }
  clear Hthrow. revert this Hstuck.
  induction cs as [|c cs IH]; intros this [Hp Hbuf].
  - destruct Hp as [closed Hp]. cbn [run].
    now apply (commit_throws_iff_snoc closed EmptyString this node' Hp).
  - cbn [run]. apply IH. now apply invoke_stuck.
Qed.

(** X7.  A [commit] of an accumulator that is not longer than the size
    limit returns, and the current page it leaves is within the size
    limit, whatever the length of the current page before. *)
Theorem commit_of_fitting_accumulator_succeeds
    (closed : list string) (cur : string)
    (this : PagedDuplexStream) (node : DocumentNode) :
  pages this = closed ++ [cur] ->
  strlen (buffer this) <= sizeLimit this ->
  fst (commit node this) = Normal tt /\
  exists page,
    fst (currentPage (snd (commit node this))) = Normal (Some page) /\
    strlen page <= sizeLimit this.
Proof.
  intros Hp Hfit. rewrite (commit_snoc closed cur this node Hp), !Z.gtb_ltb.
  destruct (Z.ltb_spec (sizeLimit this) (strlen cur + strlen (buffer this)))
    as [Hover | Hunder].
  - destruct (Z.eqb_spec (strlen cur) 0) as [Hzero | Hnonzero].
    + destruct (Z.ltb_spec (sizeLimit this) (strlen (buffer this))); lia.
    + split; [reflexivity|]. exists (buffer this). split; [|exact Hfit].
      cbn [snd].
      now rewrite (currentPage_snoc (closed ++ [cur]) (buffer this))
        by (cbn; now rewrite <- app_assoc).
  - split; [reflexivity|]. exists (cur +++ buffer this).
    split; [|rewrite strlen_append; lia].
    cbn [snd].
    now rewrite (currentPage_snoc closed (cur +++ buffer this)).
Qed.

(** ** Closed pages are final *)

Lemma continues_refl (closed : list string) (cur : string) :
  continues (closed ++ [cur]) (closed ++ [cur]).
Proof.
  exists closed, cur, EmptyString, [].
  now rewrite append_empty_r, app_nil_r.
Qed.

Lemma continues_trans (l l' l'' : list string) :
  continues l l' -> continues l' l'' -> continues l l''.
Proof.
  intros (closed & cur & t & more & -> & ->)
         (closed' & cur' & t' & more' & Heq & ->).
  destruct (snoc_or_nil more) as [-> | (m & x & ->)].
  - rewrite app_nil_r in Heq. apply app_inj_tail in Heq.
    destruct Heq as [<- <-].
    exists closed, cur, (t +++ t'), more'. now rewrite append_assoc.
  - rewrite !app_assoc in Heq. apply app_inj_tail in Heq.
    destruct Heq as [<- <-].
    exists closed, cur, t, (m ++ [x +++ t'] ++ more').
    split; [reflexivity|]. now rewrite <- !app_assoc.
Qed.

Lemma continues_app_l (d l l' : list string) :
  continues l l' -> continues (d ++ l) (d ++ l').
Proof.
  intros (closed & cur & t & more & -> & ->).
  exists (d ++ closed), cur, t, more. now rewrite <- !app_assoc.
Qed.

Lemma invoke_continues (c : Call) (this : PagedDuplexStream) :
  pages this <> [] ->
  pages (snd (invoke c this)) <> [] /\
  continues (pages this) (drained [c] this ++ pages (snd (invoke c this))).
Proof.
  intros Hne.
  destruct (snoc_or_nil (pages this)) as [Hp | (closed & cur & Hp)];
    [contradiction|].
  destruct (isQuery c) eqn:Hq.
  { rewrite (invoke_query_unchanged c this Hq). split; [exact Hne|].
    destruct c; try discriminate; cbn [drained app]; rewrite Hp;
      apply continues_refl. }
  destruct c; try discriminate; cbn [drained app]; unfold invoke, bind.
  - cbn. rewrite Hp. split; [now destruct closed|]. apply continues_refl.
  - rewrite (ensureNewPage_snoc closed cur this Hp).
    destruct (strlen cur =? 0); cbn; rewrite Hp;
      (split; [now destruct closed|]); [apply continues_refl|].
    exists closed, cur, EmptyString, [EmptyString].
    now rewrite append_empty_r.
  - rewrite (commit_snoc closed cur this node Hp).
    repeat match goal with
           | |- context [if ?b then _ else _] => destruct b
           end; cbn; rewrite ?Hp; (split; [now destruct closed|]);
      try apply continues_refl.
    + exists closed, cur, (buffer this), []. now rewrite app_nil_r.
    + exists closed, cur, EmptyString, [buffer this].
      now rewrite append_empty_r.
    + exists closed, cur, (buffer this), []. now rewrite app_nil_r.
  - rewrite readPage_cases.
    destruct (pages this) as [|first [|second rest]] eqn:E;
      [contradiction | |]; cbn; rewrite ?E; (split; [discriminate|]);
      rewrite Hp; apply continues_refl.
Qed.

(** X8.  Pages that are closed stay as they are: in the sequence made of
    the drained pages and then the pages still queued, the pages that were
    closed at the start are found again unchanged and in place, the page
    that was current has at most gained text at its end, and new pages
    come only after it. *)
Theorem closed_pages_are_final (cs : list Call) (this : PagedDuplexStream) :
  pages this <> [] ->
  continues (pages this) (drained cs this ++ pages (run cs this)).
Proof.
  revert this. induction cs as [|c cs IH]; intros this Hne.
  - cbn. destruct (snoc_or_nil (pages this)) as [Hp | (closed & cur & Hp)];
      [contradiction|]. rewrite Hp. apply continues_refl.
  - destruct (invoke_continues c this Hne) as [Hne' Hstep].
    rewrite drained_cons, <- app_assoc. cbn [run].
    eapply continues_trans; [exact Hstep|].
    apply continues_app_l. now apply IH.
Qed.

(** ** The last committed node *)

Lemma invoke_lastCommittedNode (c : Call) (this : PagedDuplexStream) :
  lastCommittedNode (snd (invoke c this)) =
  lastNormalCommit [c] [fst (invoke c this)] (lastCommittedNode this).
Proof.
  destruct (isQuery c) eqn:Hq.
  { rewrite (invoke_query_unchanged c this Hq).
    destruct c; try discriminate; reflexivity. }
  destruct c; try discriminate; cbn [lastNormalCommit]; unfold invoke, bind.
  - reflexivity.
  - destruct (snoc_or_nil (pages this)) as [Hp | (closed & cur & Hp)].
    + now rewrite (ensureNewPage_nil this Hp).
    + rewrite (ensureNewPage_snoc closed cur this Hp).
      now destruct (strlen cur =? 0).
  - destruct (snoc_or_nil (pages this)) as [Hp | (closed & cur & Hp)].
    + now rewrite (commit_nil this node Hp).
    + rewrite (commit_snoc closed cur this node Hp).
      destruct (strlen cur + strlen (buffer this) >? sizeLimit this);
        [destruct (strlen cur =? 0);
         [destruct (strlen (buffer this) >? sizeLimit this)|]|];
        reflexivity.
  - rewrite readPage_cases. now destruct (pages this) as [|? [|? ?]].
Qed.

(** X9.  [getLastCommittedNode] returns the node of the most recent
    [commit] that returned normally; calls that throw and calls of other
    methods leave it as it was. *)
Theorem lastCommittedNode_is_last_normal_commit
    (cs : list Call) (this : PagedDuplexStream) :
  fst (getLastCommittedNode (run cs this)) =
  Normal (lastNormalCommit cs (results cs this) (lastCommittedNode this)).
Proof.
  change (fst (getLastCommittedNode (run cs this)))
    with (Normal (lastCommittedNode (run cs this))).
  f_equal. revert this. induction cs as [|c cs IH]; intros this.
  - reflexivity.
  - cbn [run results]. rewrite IH, invoke_lastCommittedNode.
    destruct c; try reflexivity.
    cbn [lastNormalCommit]. now destruct (fst (invoke (Commit node) this)).
Qed.

(** ** Between commits *)

Lemma invoke_without_commit (c : Call) (this : PagedDuplexStream) :
  isCommit c = false ->
  buffer (snd (invoke c this)) = buffer this +++ written [c] /\
  concatPages (drained [c] this ++ pages (snd (invoke c this))) =
    concatPages (pages this).
Proof.
  intros Hc. destruct (isQuery c) eqn:Hq.
  { rewrite (invoke_query_unchanged c this Hq).
    destruct c; try discriminate; cbn [written drained app];
      now rewrite append_empty_r. }
  destruct c; try discriminate; cbn [written drained app];
    unfold invoke, bind.
  - cbn. now rewrite append_empty_r.
  - destruct (snoc_or_nil (pages this)) as [Hp | (closed & cur & Hp)].
    + rewrite (ensureNewPage_nil this Hp). cbn. now rewrite append_empty_r.
    + rewrite (ensureNewPage_snoc closed cur this Hp).
      destruct (strlen cur =? 0); cbn [fst snd]; rewrite append_empty_r;
        (split; [reflexivity|]); [reflexivity|].
      rewrite Hp. cbn [ret fst snd pages set_pages]. now text_norm.
  - rewrite readPage_cases.
    destruct (pages this) as [|first [|second rest]] eqn:E; cbn;
      rewrite ?E, append_empty_r; now split.
Qed.

(** X10.  Calls other than [commit] move no text: the accumulator has
    gained exactly the text written, and the drained pages and the pages
    still queued hold together the text the pages held before. *)
Theorem only_commit_moves_text (cs : list Call) (this : PagedDuplexStream) :
  forallb (fun c => negb (isCommit c)) cs = true ->
  buffer (run cs this) = buffer this +++ written cs /\
  concatPages (drained cs this ++ pages (run cs this)) =
    concatPages (pages this).
Proof.
  revert this. induction cs as [|c cs IH]; intros this Hcs.
  - cbn. now rewrite append_empty_r.
  - cbn [forallb] in Hcs. apply andb_true_iff in Hcs.
    destruct Hcs as [Hc Hcs]. apply negb_true_iff in Hc.
    destruct (invoke_without_commit c this Hc) as [Hbuf Htext].
    destruct (IH (snd (invoke c this)) Hcs) as [IHbuf IHtext].
    cbn [run]. rewrite written_cons, drained_cons. split.
    + now rewrite IHbuf, Hbuf, append_assoc.
    + rewrite <- app_assoc, concatPages_app, IHtext, <- concatPages_app.
      exact Htext.
Qed.

(** ** Text that fits in one page *)

Lemma run_one_page (cs : list Call) (page : string)
    (this : PagedDuplexStream) :
  forallb (fun c => negb (isEnsureNewPage c)) cs = true ->
  pages this = [page] ->
  strlen page + strlen (buffer this) + strlen (written cs)
    <= sizeLimit this ->
  drained cs this = [] /\
  Forall (fun r => isNormal r = true) (results cs this) /\
  exists page',
    pages (run cs this) = [page'] /\
    page' +++ buffer (run cs this) = page +++ buffer this +++ written cs.
Proof.
  revert page this. induction cs as [|c cs IH]; intros page this Hcs Hp Hfit.
  - cbn. repeat split; [constructor|]. exists page.
    now rewrite append_empty_r.
  - cbn [forallb] in Hcs. apply andb_true_iff in Hcs.
    destruct Hcs as [Hc Hcs]. apply negb_true_iff in Hc.
    rewrite written_cons, strlen_append in Hfit.
    assert (Hstep : exists page1,
               pages (snd (invoke c this)) = [page1] /\
               isNormal (fst (invoke c this)) = true /\
               drained [c] this = [] /\
               sizeLimit (snd (invoke c this)) = sizeLimit this /\
               strlen page1 + strlen (buffer (snd (invoke c this)))
                 = strlen page + strlen (buffer this) + strlen (written [c])
               /\
               page1 +++ buffer (snd (invoke c this))
                 = page +++ buffer this +++ written [c]).
    { assert (Hsnoc : pages this = [] ++ [page]) by exact Hp.
      destruct c; try discriminate; cbn [written drained app];
        unfold invoke, bind.
      - exists page. cbn. rewrite strlen_append, append_empty_r.
        repeat split; [exact Hp | lia].
      - exists page. cbn. now rewrite append_empty_r, Z.add_0_r.
      - exists page.
        rewrite (isPageAndBufferOverSize_snoc [] page this Hsnoc). cbn.
        now rewrite append_empty_r, Z.add_0_r.
      - exists (page +++ buffer this).
        rewrite (commit_snoc [] page this node Hsnoc), Z.gtb_ltb.
        pose proof (Zle_0_nat (String.length (written cs))) as H0.
        fold (strlen (written cs)) in H0. cbn [written] in Hfit.
        change (strlen EmptyString) with 0 in Hfit.
        destruct (Z.ltb_spec (sizeLimit this)
                    (strlen page + strlen (buffer this))); [lia|].
        cbn. rewrite strlen_append, !append_empty_r.
        change (strlen EmptyString) with 0. repeat split; lia.
      - exists page. cbn. now rewrite append_empty_r, Z.add_0_r.
      - exists page. rewrite peekPage_cases, Hp. cbn.
        now rewrite Hp, append_empty_r, Z.add_0_r.
      - exists page. rewrite readPage_cases, Hp. cbn.
        now rewrite Hp, append_empty_r, Z.add_0_r. }
    destruct Hstep as (page1 & Hp1 & Hnormal & Hd & Hlimit & Hlen & Htext).
    destruct (IH page1 (snd (invoke c this)) Hcs Hp1) as (IHd & IHr & IHp).
    { rewrite Hlimit, Hlen. lia. }
    rewrite drained_cons, Hd, IHd. cbn [run results app].
    repeat split; [now constructor|].
    destruct IHp as (page' & Hp' & Htext'). exists page'.
    split; [exact Hp'|].
    now rewrite Htext', written_cons, <- !append_assoc, Htext,
      !append_assoc.
Qed.

(** X11.  As long as all the text written fits in one page and
    [ensureNewPage] is not called, no call throws, no page becomes ready,
    and the stream has one page, which with the accumulator holds the
    text written. *)
Theorem text_within_limit_stays_on_one_page (limit : Z) (cs : list Call) :
  forallb (fun c => negb (isEnsureNewPage c)) cs = true ->
  strlen (written cs) <= limit ->
  drained cs (constructor limit) = [] /\
  Forall (fun r => isNormal r = true) (results cs (constructor limit)) /\
  exists page,
    pages (run cs (constructor limit)) = [page] /\
    page +++ buffer (run cs (constructor limit)) = written cs.
Proof.
  intros Hcs Hfit.
  exact (run_one_page cs EmptyString (constructor limit) Hcs eq_refl Hfit).
Qed.

End Stream.

Arguments mkStream {DocumentNode} _ _ _ _.
Arguments buffer {DocumentNode} _.
Arguments pages {DocumentNode} _.
Arguments lastCommittedNode {DocumentNode} _.
Arguments sizeLimit {DocumentNode} _.
Arguments set_pages {DocumentNode} _ _.
Arguments committed {DocumentNode} _ _ _.
Arguments constructor {DocumentNode} _.
Arguments currentPage {DocumentNode} _.
Arguments isPageAndBufferOverSize {DocumentNode} _.
Arguments commit {DocumentNode} _ _.
Arguments peekPage {DocumentNode} _.
Arguments readPage {DocumentNode} _.
Arguments WriteString {DocumentNode} _.
Arguments EnsureNewPage {DocumentNode}.
Arguments Commit {DocumentNode} _.
Arguments GetLastCommittedNode {DocumentNode}.
Arguments PeekPage {DocumentNode}.
Arguments ReadPage {DocumentNode}.
Arguments VVoid {DocumentNode}.
Arguments VSelf {DocumentNode}.
Arguments VNode {DocumentNode} _.
Arguments VPage {DocumentNode} _.
Arguments run {DocumentNode} _ _.
Arguments results {DocumentNode} _ _.
Arguments drained {DocumentNode} _ _.
Arguments written {DocumentNode} _.
Arguments commitsFit {DocumentNode} _ _.

(** * ServerAcl: the allow and deny lists of a server ACL

    A shallow embedding of [src/models/ServerAcl.ts].  The object holds
    two sets of glob patterns, a flag and the name of the own homeserver;
    its methods are functions on the record of these fields. *)

Module ServerAcl.

(** Modelled from the spec: the [traceSync] decorator of [utils], which is
    not part of the sources at hand; as for the stream, a decorated method
    behaves as its body. *)
Definition traceSync {A} (name : string) (body : A) : A := body.

(** ** JavaScript sets and arrays of strings *)

(** [Array.prototype.includes] on strings. *)
Fixpoint includes (l : list string) (s : string) : bool :=
  match l with
  | [] => false
  | x :: l' => if String.eqb x s then true else includes l' s
  end.

(** A [Set<string>] is the list of its elements in insertion order, each
    of them once.  [Set.prototype.add] appends a value that is not yet
    in the set and leaves the set alone otherwise. *)
Definition set_add (s : string) (set : list string) : list string :=
  if includes set s then set else set ++ [s].

(** [new Set<string>(globs)] adds the elements of the array one by one. *)
Definition set_of (globs : list string) : list string :=
  fold_left (fun set s => set_add s set) globs [].

(** Modelled from the spec: [setToArray] of [utils], which is not part of
    the sources at hand and which the spec counts among the generic set and
    array helpers: a new array with the elements of the set in iteration
    order. *)
Definition setToArray (set : list string) : list string := set.

(** ** The content record and the object *)

Record ServerAclContent : Type := mkContent {
  allow : list string;
  deny : list string;
  allow_ip_literals : bool
}.

(** The argument of [matches] has type [any].  It is taken here to be a
    falsy value ([None] below) or an object whose [allow] and [deny] are
    [undefined] or arrays of strings and whose [allow_ip_literals] is a
    boolean or anything else ([None]). *)
Record AnyContent : Type := mkAny {
  any_allow : option (list string);
  any_deny : option (list string);
  any_allow_ip_literals : option bool
}.

(** A content record passed where [any] is expected. *)
Definition asAny (c : ServerAclContent) : option AnyContent :=
  Some (mkAny (Some (allow c)) (Some (deny c)) (Some (allow_ip_literals c))).

Record ServerAcl : Type := mkAcl {
  allowedServers : list string;
  deniedServers : list string;
  allowIps : bool;
  homeserver : string
}.

Definition constructor (homeserver : string) : ServerAcl :=
  mkAcl [] [] false homeserver.

Section Glob.

(** [new MatrixGlob(glob).test(name)] of the matrix-bot-sdk library, which
    is not part of this repository: any test that gives a boolean for
    every glob and name. *)
Variable globTest : string -> string -> bool.

(** ** The methods *)

Definition safeDeniedServers (this : ServerAcl) : list string :=
  traceSync "ServerAcl.safeDeniedServers" (
    fold_left
      (fun entries server =>
         if negb (globTest server (homeserver this))
         then entries ++ [server]
         else entries)
      (deniedServers this) []).

Definition allowIpAddresses (this : ServerAcl) : ServerAcl :=
  traceSync "ServerAcl.allowIpAddresses" (
    mkAcl (allowedServers this) (deniedServers this) true (homeserver this)).

Definition denyIpAddresses (this : ServerAcl) : ServerAcl :=
  traceSync "ServerAcl.denyIpAddresses" (
    mkAcl (allowedServers this) (deniedServers this) false (homeserver this)).

Definition allowServer (glob : string) (this : ServerAcl) : ServerAcl :=
  traceSync "ServerAcl.allowServer" (
    mkAcl (set_add glob (allowedServers this)) (deniedServers this)
      (allowIps this) (homeserver this)).

Definition setAllowedServers (globs : list string) (this : ServerAcl)
  : ServerAcl :=
  traceSync "ServerAcl.setAllowedServers" (
    mkAcl (set_of globs) (deniedServers this) (allowIps this)
      (homeserver this)).

Definition denyServer (glob : string) (this : ServerAcl) : ServerAcl :=
  traceSync "ServerAcl.denyServer" (
    mkAcl (allowedServers this) (set_add glob (deniedServers this))
      (allowIps this) (homeserver this)).

Definition setDeniedServers (globs : list string) (this : ServerAcl)
  : ServerAcl :=
  traceSync "ServerAcl.setDeniedServers" (
    mkAcl (allowedServers this) (set_of globs) (allowIps this)
      (homeserver this)).

Definition literalAclContent (this : ServerAcl) : ServerAclContent :=
  traceSync "ServerAcl.literalAclContent" (
    mkContent (setToArray (allowedServers this))
      (setToArray (deniedServers this)) (allowIps this)).

Definition safeAclContent (this : ServerAcl) : ServerAclContent :=
  traceSync "ServerAcl.safeAclContent" (
    let allowed := setToArray (allowedServers this) in
    let allowed :=
      if (length allowed =? 0)%nat then allowed ++ ["*"%string]
      else allowed in
    mkContent allowed (safeDeniedServers this) (allowIps this)).

(** The loop [for (const s of l) if (!current.includes(s)) { .. = false;
    break }], started with [true]. *)
Fixpoint allIncluded (current l : list string) : bool :=
  match l with
  | [] => true
  | s :: l' => if negb (includes current s) then false
               else allIncluded current l'
  end.

Definition matches (acl : option AnyContent) (this : ServerAcl)
  : Completion bool :=
  traceSync "ServerAcl.matches" (
    match acl with
    | None => Normal false
    | Some acl =>
        let ipsMatch :=
          match any_allow_ip_literals acl with
          | Some ips => Bool.eqb ips (allowIps this)
          | None => false
          end in
        let currentAllowed := setToArray (allowedServers this) in
        match any_allow acl with
        | None => Throw UndefinedLength
        | Some allow =>
            let allowMatches :=
              if (length allow =? length currentAllowed)%nat
              then allIncluded currentAllowed allow
              else false in
            let currentDenied := setToArray (deniedServers this) in
            match any_deny acl with
            | None => Throw UndefinedLength
            | Some deny =>
                let denyMatches :=
                  if (length deny =? length currentDenied)%nat
                  then allIncluded currentDenied deny
                  else false in
                Normal (denyMatches && allowMatches && ipsMatch)
            end
        end
    end).

(** ** Callers *)

Inductive Call : Type :=
| AllowIpAddresses
| DenyIpAddresses
| AllowServer (glob : string)
| SetAllowedServers (globs : list string)
| DenyServer (glob : string)
| SetDeniedServers (globs : list string).

Definition invoke (c : Call) (this : ServerAcl) : ServerAcl :=
  match c with
  | AllowIpAddresses => allowIpAddresses this
  | DenyIpAddresses => denyIpAddresses this
  | AllowServer glob => allowServer glob this
  | SetAllowedServers globs => setAllowedServers globs this
  | DenyServer glob => denyServer glob this
  | SetDeniedServers globs => setDeniedServers globs this
  end.

Definition run (cs : list Call) (this : ServerAcl) : ServerAcl :=
  fold_left (fun acl c => invoke c acl) cs this.

(** ** Sets *)

Lemma includes_elem_of (l : list string) (s : string) :
  includes l s = true <-> s ∈ l.
Proof.
  induction l as [|x l IH]; simpl.
  - rewrite elem_of_nil. split; [discriminate | contradiction].
  - rewrite elem_of_cons. destruct (String.eqb_spec x s) as [-> | Hne].
    + split; auto.
    + rewrite IH. split; [auto|]. intros [-> | H]; [contradiction | exact H].
Qed.

Lemma allIncluded_spec (current l : list string) :
  allIncluded current l = true <-> forall s, s ∈ l -> s ∈ current.
Proof.
  induction l as [|x l IH]; simpl.
  - split; [|reflexivity]. intros _ s H. now apply elem_of_nil in H.
  - destruct (includes current x) eqn:Hx; simpl.
    + apply includes_elem_of in Hx. rewrite IH. split.
      * intros H s Hs. apply elem_of_cons in Hs. destruct Hs as [-> | Hs];
          auto.
      * intros H s Hs. apply H. apply elem_of_cons. auto.
    + split; [discriminate|]. intros H.
      assert (Hin : x ∈ current) by (apply H, elem_of_cons; auto).
      apply includes_elem_of in Hin. congruence.
Qed.

Lemma set_add_elem_of (s x : string) (set : list string) :
  x ∈ set_add s set <-> x = s \/ x ∈ set.
Proof.
  clear globTest.
  unfold set_add. destruct (includes set s) eqn:Hs.
  - apply includes_elem_of in Hs. split; [auto|].
    intros [-> | H]; assumption.
  - rewrite elem_of_app, list_elem_of_singleton. tauto.
Qed.

Lemma set_add_NoDup (s : string) (set : list string) :
  NoDup set -> NoDup (set_add s set).
Proof.
  intros Hset. unfold set_add. destruct (includes set s) eqn:Hs;
    [exact Hset|].
  apply NoDup_app. split; [exact Hset|]. split; [|apply NoDup_singleton].
  intros x Hx Hx'. apply list_elem_of_singleton in Hx'. subst x.
  apply includes_elem_of in Hx. congruence.
Qed.

Lemma set_add_fresh (s : string) (set : list string) :
  s ∉ set -> set_add s set = set ++ [s].
Proof.
  intros Hs. unfold set_add. destruct (includes set s) eqn:E;
    [|reflexivity].
  apply includes_elem_of in E. contradiction.
Qed.

Lemma fold_set_add (globs set : list string) :
  NoDup set ->
  let result := fold_left (fun set s => set_add s set) globs set in
  NoDup result /\
  (forall x, x ∈ result <-> x ∈ set \/ x ∈ globs) /\
  (NoDup (set ++ globs) -> result = set ++ globs).
Proof.
  clear globTest.
  revert set. induction globs as [|g globs IH]; intros set Hset; simpl.
  - split; [exact Hset|]. split.
    + intros x. rewrite elem_of_nil. tauto.
    + intros _. now rewrite app_nil_r.
  - destruct (IH (set_add g set) (set_add_NoDup g set Hset))
      as (Hnd & Hin & Heq).
    split; [exact Hnd|]. split.
    + intros x. rewrite Hin, set_add_elem_of, elem_of_cons. tauto.
    + intros Hall. apply NoDup_app in Hall.
      destruct Hall as (_ & Hdisj & Hglobs).
      apply NoDup_cons in Hglobs. destruct Hglobs as [Hg Hglobs].
      assert (Hfresh : g ∉ set).
      { intros H. apply (Hdisj g H). apply elem_of_cons. auto. }
      rewrite (set_add_fresh g set Hfresh) in Heq |- *.
      rewrite Heq, <- app_assoc; [reflexivity|].
      rewrite <- app_assoc. apply NoDup_app. split; [exact Hset|].
      split; [|apply NoDup_cons; auto]. exact Hdisj.
Qed.

Lemma safeDeniedServers_filter (this : ServerAcl) :
  safeDeniedServers this =
  filter (fun server => globTest server (homeserver this) = false)
    (deniedServers this).
Proof.
  unfold safeDeniedServers, traceSync.
  set (step := fun entries server =>
                 if negb (globTest server (homeserver this))
                 then entries ++ [server] else entries).
  assert (H : forall l entries,
             fold_left step l entries =
             entries ++ filter (fun server =>
                                  globTest server (homeserver this) = false) l).
  { induction l as [|x l IH]; intros entries; simpl.
    - now rewrite app_nil_r.
    - rewrite IH. unfold step. rewrite filter_cons.
      destruct (decide (globTest x (homeserver this) = false)) as [Hd | Hd].
      + rewrite Hd. simpl. now rewrite <- app_assoc.
      + destruct (globTest x (homeserver this)); [reflexivity | congruence]. }
  apply (H (deniedServers this) []).
Qed.

Lemma filter_length_all {A} (P : A -> Prop) `{forall x, Decision (P x)}
    (l : list A) :
  length (filter P l) = length l <-> forall x, x ∈ l -> P x.
Proof.
  split.
  - intros Hlen x Hx. destruct (decide (P x)) as [HP | HP]; [exact HP|].
    pose proof (length_filter_lt P l x Hx HP). lia.
  - intros Hall. induction l as [|x l IH]; [reflexivity|].
    rewrite filter_cons, decide_True by (apply Hall, elem_of_cons; auto).
    simpl. f_equal. apply IH. intros y Hy. apply Hall, elem_of_cons. auto.
Qed.

(** What [matches] computes on a content record. *)
Lemma matches_true_iff (c : ServerAclContent) (this : ServerAcl) :
  matches (asAny c) this = Normal true <->
  allow_ip_literals c = allowIps this /\
  length (allow c) = length (allowedServers this) /\
  (forall s, s ∈ allow c -> s ∈ allowedServers this) /\
  length (deny c) = length (deniedServers this) /\
  (forall s, s ∈ deny c -> s ∈ deniedServers this).
Proof.
  unfold matches, asAny, traceSync, setToArray. cbn.
  rewrite <- !allIncluded_spec.
  destruct (Nat.eqb_spec (length (allow c)) (length (allowedServers this)));
    destruct (Nat.eqb_spec (length (deny c)) (length (deniedServers this)));
    destruct (allIncluded (allowedServers this) (allow c));
    destruct (allIncluded (deniedServers this) (deny c));
    destruct (allow_ip_literals c), (allowIps this); cbn;
    split; try discriminate; try tauto; intros (? & ? & ? & ? & ?);
    try discriminate; try contradiction; try congruence.
Qed.

(** ** Properties of the ACL *)

(** X12.  The content of [safeAclContent] always allows something: the
    allowed servers, or ["*"] when there are none.  Its deny list holds
    the denied servers whose glob does not match the own homeserver, and
    no other entry. *)
Theorem safeAclContent_is_safe (this : ServerAcl) :
  allow (safeAclContent this) <> [] /\
  (allowedServers this <> [] ->
   allow (safeAclContent this) = allowedServers this) /\
  (allowedServers this = [] ->
   allow (safeAclContent this) = ["*"%string]) /\
  (forall server,
     server ∈ deny (safeAclContent this) <->
     server ∈ deniedServers this /\
     globTest server (homeserver this) = false) /\
  allow_ip_literals (safeAclContent this) = allowIps this.
Proof.
  unfold safeAclContent, traceSync, setToArray. cbn [allow deny
    allow_ip_literals].
  rewrite safeDeniedServers_filter.
  split; [|split; [|split; [|split]]].
  - destruct (allowedServers this); cbn; discriminate.
  - intros H. destruct (allowedServers this); [contradiction | reflexivity].
  - intros ->. reflexivity.
  - intros server. rewrite list_elem_of_filter. tauto.
  - reflexivity.
Qed.

(** X13.  An ACL matches its own literal content. *)
Theorem matches_literalAclContent (this : ServerAcl) :
  matches (asAny (literalAclContent this)) this = Normal true.
Proof.
  apply matches_true_iff.
  unfold literalAclContent, traceSync, setToArray. cbn. auto 10.
Qed.

(** X14.  On a content whose lists name no server twice, [matches] is
    true exactly when the allow list and the deny list hold the servers
    of the ACL, in any order, and the flag is the same. *)
Theorem matches_iff_same_servers (c : ServerAclContent) (this : ServerAcl) :
  NoDup (allow c) ->
  NoDup (deny c) ->
  matches (asAny c) this = Normal true <->
  allow c ≡ₚ allowedServers this /\
  deny c ≡ₚ deniedServers this /\
  allow_ip_literals c = allowIps this.
Proof.
  intros Hallow Hdeny. rewrite matches_true_iff. split.
  - intros (Hips & Hla & Hia & Hld & Hid). repeat split; [| |exact Hips].
    + apply submseteq_length_Permutation; [|lia].
      now apply NoDup_submseteq.
    + apply submseteq_length_Permutation; [|lia].
      now apply NoDup_submseteq.
  - intros (Hpa & Hpd & Hips). split; [exact Hips|].
    split; [now rewrite Hpa|]. split; [intros s; now rewrite Hpa|].
    split; [now rewrite Hpd|]. intros s. now rewrite Hpd.
Qed.

(** X15.  An ACL matches its own safe content exactly when it allows at
    least one server and none of its denied globs matches the own
    homeserver. *)
Theorem matches_safeAclContent_iff (this : ServerAcl) :
  matches (asAny (safeAclContent this)) this = Normal true <->
  allowedServers this <> [] /\
  forall server,
    server ∈ deniedServers this ->
    globTest server (homeserver this) = false.
Proof.
  rewrite matches_true_iff.
  unfold safeAclContent, traceSync, setToArray.
  cbn [allow deny allow_ip_literals]. rewrite safeDeniedServers_filter.
  rewrite filter_length_all. split.
  - intros (_ & Hlen & _ & Hall & _). split; [|exact Hall].
    intros Hnil. rewrite Hnil in Hlen. discriminate.
  - intros [Hne Hall]. split; [reflexivity|].
    destruct (allowedServers this) as [|x l]; [contradiction|]. cbn.
    repeat split; auto.
    intros s Hs. apply list_elem_of_filter in Hs. tauto.
Qed.

(** X16.  [setAllowedServers] and [setDeniedServers] make a set of the
    array: the literal content then lists the servers of the array, each
    once; an array that names no server twice is listed as it is.  The
    other list is not changed. *)
Theorem set_servers_makes_a_set (globs : list string) (this : ServerAcl) :
  let allowed := allow (literalAclContent (setAllowedServers globs this)) in
  let denied := deny (literalAclContent (setDeniedServers globs this)) in
  (NoDup allowed /\ (forall s, s ∈ allowed <-> s ∈ globs) /\
   (NoDup globs -> allowed = globs)) /\
  (NoDup denied /\ (forall s, s ∈ denied <-> s ∈ globs) /\
   (NoDup globs -> denied = globs)) /\
  deny (literalAclContent (setAllowedServers globs this)) =
    deny (literalAclContent this) /\
  allow (literalAclContent (setDeniedServers globs this)) =
    allow (literalAclContent this).
Proof.
  clear globTest.
  cbn. destruct (fold_set_add globs [] (NoDup_nil_2)) as (Hnd & Hin & Heq).
  fold (set_of globs) in Hnd, Hin, Heq.
  assert (Hin' : forall s, s ∈ set_of globs <-> s ∈ globs).
  { intros s. rewrite Hin, elem_of_nil. tauto. }
  repeat split; auto; try apply Hin'.
Qed.

(** X17.  [allowServer] and [denyServer] add to a set: the server is in
    the list afterwards, together with the servers that were; a server
    that is already there is not added again, and the list stays as it
    is. *)
Theorem add_server_adds_once (glob : string) (this : ServerAcl) :
  (forall s, s ∈ allowedServers (allowServer glob this) <->
             s = glob \/ s ∈ allowedServers this) /\
  (forall s, s ∈ deniedServers (denyServer glob this) <->
             s = glob \/ s ∈ deniedServers this) /\
  (glob ∈ allowedServers this -> allowServer glob this = this) /\
  (glob ∈ deniedServers this -> denyServer glob this = this) /\
  allowServer glob (allowServer glob this) = allowServer glob this /\
  denyServer glob (denyServer glob this) = denyServer glob this.
Proof.
  clear globTest.
  assert (Hthere : forall set, glob ∈ set -> set_add glob set = set).
  { intros set H. unfold set_add. apply includes_elem_of in H.
    now rewrite H. }
  assert (Hnew : forall set, glob ∈ set_add glob set).
  { intros set. apply set_add_elem_of. auto. }
  unfold allowServer, denyServer, traceSync. cbn.
  repeat split; try apply set_add_elem_of;
    try (intros H%set_add_elem_of; exact H);
    try (intros H; rewrite (Hthere _ H); now destruct this);
    now rewrite (Hthere _ (Hnew _)).
Qed.

(** X18.  [matches] on what is not a content record: a falsy argument
    gives [false]; an object without [allow], or with [allow] and without
    [deny], makes it throw; an object with both lists and without a
    boolean [allow_ip_literals] gives [false]. *)
Theorem matches_on_partial_content (this : ServerAcl) :
  matches None this = Normal false /\
  (forall deny ips,
     matches (Some (mkAny None deny ips)) this = Throw UndefinedLength) /\
  (forall allow ips,
     matches (Some (mkAny (Some allow) None ips)) this
     = Throw UndefinedLength) /\
  (forall allow deny,
     matches (Some (mkAny (Some allow) (Some deny) None)) this
     = Normal false).
Proof.
  unfold matches, traceSync. cbn. repeat split.
  intros allow deny. now rewrite andb_false_r.
Qed.

Lemma invoke_NoDup (c : Call) (this : ServerAcl) :
  NoDup (allowedServers this) ->
  NoDup (deniedServers this) ->
  NoDup (allowedServers (invoke c this)) /\
  NoDup (deniedServers (invoke c this)) /\
  homeserver (invoke c this) = homeserver this.
Proof.
  clear globTest.
  intros Ha Hd. destruct c; cbn; repeat split; auto;
    try (now apply set_add_NoDup);
    apply (fold_set_add globs [] NoDup_nil_2).
Qed.

(** X19.  However an ACL is built from [new ServerAcl(homeserver)] by its
    methods, its literal content names no server twice in a list, and the
    homeserver is the one it was made with. *)
Theorem literalAclContent_has_no_duplicates
    (cs : list Call) (name : string) :
  NoDup (allow (literalAclContent (run cs (constructor name)))) /\
  NoDup (deny (literalAclContent (run cs (constructor name)))) /\
  homeserver (run cs (constructor name)) = name.
Proof.
  clear globTest.
  unfold literalAclContent, traceSync, setToArray. cbn [allow deny].
  assert (H : forall this,
             NoDup (allowedServers this) -> NoDup (deniedServers this) ->
             NoDup (allowedServers (run cs this)) /\
             NoDup (deniedServers (run cs this)) /\
             homeserver (run cs this) = homeserver this).
  { unfold run. induction cs as [|c cs IH]; intros this Ha Hd; cbn; auto.
    destruct (invoke_NoDup c this Ha Hd) as (Ha' & Hd' & Hh).
    destruct (IH (invoke c this) Ha' Hd') as (? & ? & Hh').
    repeat split; auto. now rewrite Hh', Hh. }
  apply H; apply NoDup_nil_2.
Qed.

End Glob.

End ServerAcl.

(** ** The stream at work *)

Local Open Scope string_scope.

(** The rollover example: a limit of ten, three commits of five, five and
    one characters. *)
Example rollover_session :
  let cs := [WriteString "abcde"; Commit nodeA; WriteString "fghij";
             Commit nodeB; ReadPage; WriteString "k"; Commit nodeC;
             ReadPage; GetLastCommittedNode] in
  results cs (constructor 10) =
    [Normal VSelf; Normal VVoid; Normal VSelf; Normal VVoid;
     Normal (VPage None); Normal VSelf; Normal VVoid;
     Normal (VPage (Some "abcdefghij")); Normal (VNode (Some nodeC))] /\
  pages (run cs (constructor 10)) = ["k"].
Proof. split; reflexivity. Qed.

(** The failure example: a limit of five and a commit of six characters. *)
Example oversize_session :
  let cs := [WriteString "abcdef"; Commit nodeA] in
  results cs (constructor 5) = [Normal VSelf; Throw OversizeCommit] /\
  run cs (constructor 5) = mkStream "abcdef" [""] None 5.
Proof. split; reflexivity. Qed.

(** C2.  A commit that rolls over is not checked against the size limit:
    with a limit of ten and a current page that has text, a commit of
    fifteen characters returns normally and leaves a current page of
    fifteen characters, although the accumulator was larger than the
    limit. *)
Theorem commit_after_rollover_exceeds_limit :
  let cs := [WriteString "abcde"; Commit nodeA;
             WriteString "0123456789abcde"] in
  let this := run cs (constructor 10) in
  this = mkStream "0123456789abcde" ["abcde"] (Some nodeA) 10 /\
  commit nodeB this =
    (Normal tt, mkStream "" ["abcde"; "0123456789abcde"] (Some nodeB) 10) /\
  fst (currentPage (snd (commit nodeB this))) =
    Normal (Some "0123456789abcde") /\
  sizeLimit (snd (commit nodeB this)) < strlen "0123456789abcde".
Proof. repeat split. Qed.

(** ** The theorems at concrete streams *)

Lemma commit_oversize_leaves_stream_unchanged_witness :
  let this := mkStream "abcdef" [""] None 5 in
  let this' := snd (commit nodeA this) in
  commit nodeA this = (Throw OversizeCommit, this') /\
  buffer this' = buffer this /\
  pages this' = pages this /\
  lastCommittedNode this' = lastCommittedNode this /\
  this' = this.
Proof.
  intros this this'. split; [reflexivity|].
  apply (commit_oversize_leaves_stream_unchanged ExampleNode this this' nodeA).
  reflexivity.
Defined.

Lemma commit_is_the_only_method_that_throws_witness :
  let this := run [WriteString "abcdef"] (constructor 5) in
  (fst (currentPage this) = Normal (Some "") /\
   sizeLimit this < strlen (buffer this)) /\
  fst (commit nodeA this) = Throw OversizeCommit.
Proof.
  intros this.
  assert (H : fst (currentPage this) = Normal (Some "") /\
              sizeLimit this < strlen (buffer this))
    by (split; reflexivity).
  split; [exact H|].
  apply (proj1 (commit_is_the_only_method_that_throws
                  ExampleNode 5 [WriteString "abcdef"])).
  exact H.
Defined.

Lemma pages_stay_within_limit_witness :
  let cs := [WriteString "abcde"; Commit nodeA; WriteString "fghij";
             Commit nodeB; WriteString "k"; Commit nodeC] in
  let pre := [WriteString "abcde"; Commit nodeA; WriteString "fghij";
              Commit nodeB] in
  0 <= 10 /\
  commitsFit cs (constructor 10) = true /\
  pre `prefix_of` cs /\
  pagesWithin 10 (pages (run pre (constructor 10))).
Proof.
  intros cs pre.
  assert (Hlimit : 0 <= 10) by lia.
  assert (Hfit : commitsFit cs (constructor 10) = true) by reflexivity.
  assert (Hpre : pre `prefix_of` cs)
    by (exists [WriteString "k"; Commit nodeC]; reflexivity).
  repeat split; try assumption.
  exact (pages_stay_within_limit ExampleNode 10 cs pre Hlimit Hfit Hpre).
Defined.

Lemma drained_pages_and_accumulator_are_written_text_witness :
  let cs := [WriteString "abcde"; Commit nodeA; WriteString "fghij";
             Commit nodeB; WriteString "k"; Commit nodeC; ReadPage;
             WriteString "lm"] in
  let this := run cs (constructor 10) in
  commitsFit cs (constructor 10) = true /\
  concatPages (drained cs (constructor 10))
    +++ concatPages (pages this) +++ buffer this = "abcdefghijklm".
Proof.
  intros cs this. split; [reflexivity|].
  exact (proj1 (drained_pages_and_accumulator_are_written_text
                  ExampleNode 10 cs eq_refl)).
Defined.

Lemma readPage_dequeues_oldest_witness :
  let this := mkStream "n" ["abcdefghij"; "klm"] (Some nodeC) 10 in
  (2 <= length (pages this))%nat /\
  exists first rest,
    pages this = first :: rest /\
    fst (readPage this) = Normal (Some first) /\
    pages (snd (readPage this)) = rest /\
    buffer (snd (readPage this)) = buffer this /\
    lastCommittedNode (snd (readPage this)) = lastCommittedNode this /\
    sizeLimit (snd (readPage this)) = sizeLimit this.
Proof.
  intros this.
  assert (H : (2 <= length (pages this))%nat) by (simpl; lia).
  split; [exact H|].
  exact (proj1 (proj2 (readPage_dequeues_oldest ExampleNode this)) H).
Defined.

Lemma empty_page_is_current_page_witness :
  let cs := [WriteString "a"; Commit nodeA; EnsureNewPage] in
  let this := run cs (constructor 10) in
  pages this !! 1%nat = Some "" /\ 2%nat = length (pages this).
Proof.
  intros cs this. split; [reflexivity|].
  exact (proj2 (empty_page_is_current_page ExampleNode 10 cs) 1%nat eq_refl).
Defined.

Lemma commit_at_exact_limit_appends_witness :
  let this := mkStream "fghij" ["abcde"] (Some nodeA) 10 in
  pages this = ([] ++ ["abcde"])%list /\
  strlen "abcde" + strlen (buffer this) = sizeLimit this /\
  isPageAndBufferOverSize this = (Normal false, this) /\
  commit nodeB this =
    (Normal tt, committed nodeB ([] ++ ["abcde" +++ buffer this])%list this) /\
  length (pages (snd (commit nodeB this))) = length (pages this).
Proof.
  intros this. split; [reflexivity|]. split; [reflexivity|].
  apply (commit_at_exact_limit_appends ExampleNode [] "abcde" this nodeB);
    reflexivity.
Defined.

Lemma commit_of_nothing_records_node_witness :
  let this := mkStream "" ["abcde"] (Some nodeA) 10 in
  pages this = ([] ++ ["abcde"])%list /\
  strlen "abcde" <= sizeLimit this /\
  buffer this = "" /\
  commit nodeB this = (Normal tt, set_lastCommittedNode _ (Some nodeB) this) /\
  pages (snd (commit nodeB this)) = pages this /\
  buffer (snd (commit nodeB this)) = buffer this /\
  lastCommittedNode (snd (commit nodeB this)) = Some nodeB /\
  sizeLimit (snd (commit nodeB this)) = sizeLimit this.
Proof.
  intros this.
  assert (Hcur : strlen "abcde" <= sizeLimit this)
    by (vm_compute; discriminate).
  split; [reflexivity|]. split; [exact Hcur|]. split; [reflexivity|].
  exact (commit_of_nothing_records_node ExampleNode [] "abcde" this nodeB
           eq_refl Hcur eq_refl).
Defined.

(** ** Where the stream departs from its description *)

(** C5.  Text that was written and not yet committed is in no page: after
    one [writeString] the pages are still empty. *)
Lemma uncommitted_text_is_in_no_page :
  let cs := [WriteString "a"] in
  let this := run cs (constructor (DocumentNode := ExampleNode) 10) in
  commitsFit cs (constructor 10) = true /\
  drained cs (constructor 10) = [] /\
  pages this = [""] /\
  concatPages (drained cs (constructor 10)) +++ concatPages (pages this)
    <> written cs.
Proof. repeat split. discriminate. Qed.

(** C7.  A commit of an empty accumulator on a new stream returns and
    leaves the one page empty; and [ensureNewPage] puts an empty page
    after a first page that has text. *)
Lemma empty_page_after_commit_and_after_first :
  (let cs := [Commit nodeA] in
   let this := run cs (constructor 10) in
   results cs (constructor 10) = [Normal VVoid] /\
   lastCommittedNode this = Some nodeA /\
   pages this = [""] /\
   ~ Forall (fun p => p <> "") (pages this)) /\
  (let cs := [WriteString "a"; Commit nodeA; EnsureNewPage] in
   let this := run cs (constructor 10) in
   pages this = ["a"; ""] /\
   pages this !! 1%nat = Some "" /\
   pages this !! 0%nat <> Some "").
Proof.
  split.
  - repeat split. intros H. inversion H as [|p l Hp Hl]. now apply Hp.
  - repeat split. discriminate.
Qed.

(** ** Further theorems at concrete streams and ACLs *)

Lemma ensureNewPage_idempotent_witness :
  let this := mkStream "de" ["abc"] (Some nodeA) 10 in
  pages this <> [] /\
  fst (currentPage (snd (ensureNewPage _ this))) = Normal (Some "").
Proof.
  intros this.
  assert (H : pages this <> []) by discriminate.
  split; [exact H|].
  exact (proj1 (proj2 (proj2 (ensureNewPage_idempotent ExampleNode this) H))).
Defined.

Lemma commit_rolls_over_iff_over_size_witness :
  let this := mkStream "k" ["abcdefghij"] (Some nodeB) 10 in
  pages this = ([] ++ ["abcdefghij"])%list /\
  fst (commit nodeC this) = Normal tt /\
  fst (isPageAndBufferOverSize this) = Normal true /\
  pages (snd (commit nodeC this)) = (pages this ++ [buffer this])%list.
Proof.
  intros this.
  split; [reflexivity|]. split; [reflexivity|]. split; [reflexivity|].
  exact (proj1 (proj2 (commit_rolls_over_iff_over_size ExampleNode
                         [] "abcdefghij" this nodeC eq_refl eq_refl))
           eq_refl).
Defined.

Lemma oversize_commit_is_final_witness :
  let this := mkStream "abcdef" [""] None 5 in
  let cs := [WriteString "g"; ReadPage; EnsureNewPage; Commit nodeB;
             PeekPage] in
  fst (commit nodeA this) = Throw OversizeCommit /\
  fst (commit nodeC (run cs this)) = Throw OversizeCommit.
Proof.
  intros this cs. split; [reflexivity|].
  exact (oversize_commit_is_final ExampleNode this nodeA nodeC cs eq_refl).
Defined.

Lemma commit_of_fitting_accumulator_succeeds_witness :
  let this := mkStream "k" ["abcdefghij"] (Some nodeB) 10 in
  pages this = ([] ++ ["abcdefghij"])%list /\
  strlen (buffer this) <= sizeLimit this /\
  fst (commit nodeC this) = Normal tt /\
  exists page,
    fst (currentPage (snd (commit nodeC this))) = Normal (Some page) /\
    strlen page <= sizeLimit this.
Proof.
  intros this.
  assert (Hfit : strlen (buffer this) <= sizeLimit this)
    by (vm_compute; discriminate).
  split; [reflexivity|]. split; [exact Hfit|].
  exact (commit_of_fitting_accumulator_succeeds ExampleNode
           [] "abcdefghij" this nodeC eq_refl Hfit).
Defined.

Lemma closed_pages_are_final_witness :
  let this := mkStream "" ["abc"; "de"] (Some nodeA) 10 in
  let cs := [ReadPage; WriteString "fghijklmn"; Commit nodeB] in
  pages this <> [] /\
  continues (pages this) (drained cs this ++ pages (run cs this))%list.
Proof.
  intros this cs.
  assert (H : pages this <> []) by discriminate.
  split; [exact H|].
  exact (closed_pages_are_final ExampleNode cs this H).
Defined.

Lemma only_commit_moves_text_witness :
  let this := mkStream "x" ["p"; "q"] (Some nodeA) 10 in
  let cs := [WriteString "a"; ReadPage; EnsureNewPage; WriteString "b"] in
  forallb (fun c => negb (isCommit _ c)) cs = true /\
  buffer (run cs this) = "xab" /\
  concatPages (drained cs this ++ pages (run cs this))%list = "pq".
Proof.
  intros this cs. split; [reflexivity|].
  exact (only_commit_moves_text ExampleNode cs this eq_refl).
Defined.

Lemma text_within_limit_stays_on_one_page_witness :
  let cs := [WriteString "abc"; Commit nodeA; WriteString "de"; ReadPage;
             Commit nodeB; WriteString "f"] in
  forallb (fun c => negb (isEnsureNewPage _ c)) cs = true /\
  strlen (written cs) <= 10 /\
  drained cs (constructor 10) = [] /\
  exists page,
    pages (run cs (constructor 10)) = [page] /\
    page +++ buffer (run cs (constructor 10)) = "abcdef".
Proof.
  intros cs.
  assert (Hfit : strlen (written cs) <= 10) by (vm_compute; discriminate).
  split; [reflexivity|]. split; [exact Hfit|].
  pose proof (text_within_limit_stays_on_one_page ExampleNode 10 cs
                eq_refl Hfit) as (Hd & _ & Hp).
  split; [exact Hd | exact Hp].
Defined.

Ltac no_duplicates :=
  repeat (apply NoDup_cons_2;
          [let H := fresh in
           intros H;
           repeat (apply elem_of_cons in H; destruct H as [H | H];
                   [discriminate|]);
           now apply elem_of_nil in H|]);
  apply NoDup_nil_2.

Lemma safeAclContent_is_safe_witness :
  let this := ServerAcl.mkAcl [] ["evil.example"; "good.example"] true
                "good.example" in
  ServerAcl.allowedServers this = [] /\
  ServerAcl.allow (ServerAcl.safeAclContent String.eqb this) = ["*"].
Proof.
  intros this. split; [reflexivity|].
  exact (proj1 (proj2 (proj2
           (ServerAcl.safeAclContent_is_safe String.eqb this))) eq_refl).
Defined.

Lemma matches_iff_same_servers_witness :
  let this := ServerAcl.mkAcl ["a.example"; "b.example"] ["c.example"]
                true "good.example" in
  let c := ServerAcl.mkContent ["b.example"; "a.example"] ["c.example"]
             true in
  NoDup (ServerAcl.allow c) /\
  NoDup (ServerAcl.deny c) /\
  ServerAcl.matches (ServerAcl.asAny c) this = Normal true /\
  ServerAcl.allow c ≡ₚ ServerAcl.allowedServers this.
Proof.
  intros this c.
  assert (Ha : NoDup (ServerAcl.allow c)) by (cbn; no_duplicates).
  assert (Hd : NoDup (ServerAcl.deny c)) by (cbn; no_duplicates).
  split; [exact Ha|]. split; [exact Hd|]. split; [reflexivity|].
  exact (proj1 (proj1 (ServerAcl.matches_iff_same_servers c this Ha Hd)
                  eq_refl)).
Defined.

Lemma matches_safeAclContent_iff_witness :
  let this := ServerAcl.mkAcl ["*"] ["evil.example"] false "good.example" in
  (ServerAcl.allowedServers this <> [] /\
   forall server,
     server ∈ ServerAcl.deniedServers this ->
     String.eqb server (ServerAcl.homeserver this) = false) /\
  ServerAcl.matches
    (ServerAcl.asAny (ServerAcl.safeAclContent String.eqb this)) this
  = Normal true.
Proof.
  intros this.
  assert (H : ServerAcl.allowedServers this <> [] /\
              forall server,
                server ∈ ServerAcl.deniedServers this ->
                String.eqb server (ServerAcl.homeserver this) = false).
  { split; [discriminate|]. intros server Hs.
    apply list_elem_of_singleton in Hs. now subst server. }
  split; [exact H|].
  exact (proj2 (ServerAcl.matches_safeAclContent_iff String.eqb this) H).
Defined.

Lemma set_servers_makes_a_set_witness :
  let this := ServerAcl.constructor "good.example" in
  let globs := ["a.example"; "b.example"] in
  NoDup globs /\
  ServerAcl.allow
    (ServerAcl.literalAclContent (ServerAcl.setAllowedServers globs this))
  = globs.
Proof.
  intros this globs.
  assert (H : NoDup globs) by (unfold globs; no_duplicates).
  split; [exact H|].
  exact (proj2 (proj2 (proj1
           (ServerAcl.set_servers_makes_a_set globs this))) H).
Defined.

Lemma add_server_adds_once_witness :
  let this := ServerAcl.mkAcl ["a.example"; "b.example"] [] false
                "good.example" in
  "a.example" ∈ ServerAcl.allowedServers this /\
  ServerAcl.allowServer "a.example" this = this.
Proof.
  intros this.
  assert (H : "a.example" ∈ ServerAcl.allowedServers this)
    by (apply elem_of_cons; left; reflexivity).
  split; [exact H|].
  exact (proj1 (proj2 (proj2
           (ServerAcl.add_server_adds_once "a.example" this))) H).
Defined.
